(** * Ez2source client scripts: dialogs, typeahead, debounce, service workers

    A shallow embedding of the browser scripts of the repository:
    - [modal-fix.js] ([ModalManager]) and the emergency modal fix script,
    - the location autocomplete (country / city), its debug variant and
      [InterviewAutocomplete],
    - [InterviewApp.utils.debounce] and [InterviewApp.utils.formatTime]
      (both copies of the main script),
    - the three service workers.

    Strings are sequences of UTF-16 code units, as in JavaScript; the DOM
    is represented by the fields the scripts read and write. *)

From Stdlib Require Import NArith String Ascii.
From stdpp Require Import base decidable list gmap.

Open Scope N_scope.

(** ** JavaScript strings *)

Module Js.

Definition code_unit := N.
Abbreviation jsstring := (list N).

(** An ASCII literal as a sequence of code units. *)
Fixpoint lit (s : string) : jsstring :=
  match s with
  | EmptyString => []
  | String c s' => N_of_ascii c :: lit s'
  end.

(** Strings whose code units all lie in the Basic Latin and Latin-1
    Supplement blocks (below U+0100). *)
Definition latin1 (s : jsstring) : bool := forallb (λ c, c <? 256) s.

(** [String.prototype.toLowerCase] on [latin1] strings, which hold every
    cased letter of the candidate lists: there the method works code unit
    by code unit and keeps the length.  Outside these blocks it maps other
    letters too and may change the length (U+0130 becomes two code units,
    U+212A becomes [k]); [lower_unit] leaves such code units as they are,
    and every theorem on what is matched or on the length of a query is
    stated for [latin1] strings. *)
Definition lower_unit (c : code_unit) : code_unit :=
  if (65 <=? c) && (c <=? 90) then c + 32
  else if (192 <=? c) && (c <=? 222) && negb (c =? 215) then c + 32
  else c.

Definition toLowerCase (s : jsstring) : jsstring := map lower_unit s.

Fixpoint startsWith (s q : jsstring) : bool :=
  match q, s with
  | [], _ => true
  | _ :: _, [] => false
  | a :: q', b :: s' => (a =? b) && startsWith s' q'
  end.

(** [s.includes(q)]: [q] occurs in [s] at some position. *)
Fixpoint includes (s q : jsstring) : bool :=
  startsWith s q ||
  match s with
  | [] => false
  | _ :: s' => includes s' q
  end.

(** Truthiness of a string: only the empty string is falsy. *)
Definition truthy_str (s : jsstring) : bool :=
  match s with [] => false | _ => true end.

(** [arr.slice(0, n)] *)
Definition slice0 {A} (n : nat) (l : list A) : list A := take n l.

(** Outcome of a handler: it returns, or a [TypeError] escapes it; both
    carry the state reached at that point. *)
Inductive result (A : Type) : Type :=
| Ok (a : A)
| TypeError (a : A).
Arguments Ok {A} a.
Arguments TypeError {A} a.

(** A plain object used as a lookup table from strings to arrays of
    strings.  Own properties are kept in insertion order, the order of
    [Object.values]. *)
Abbreviation table := (list (list N * list (list N))).

(** Property names every plain object inherits from [Object.prototype];
    their values are functions (or, for [__proto__], the prototype
    object), all of them truthy and none of them an array. *)
Definition object_prototype_names : list jsstring :=
  map lit ["constructor"; "toString"; "toLocaleString"; "valueOf";
           "hasOwnProperty"; "isPrototypeOf"; "propertyIsEnumerable";
           "__proto__"; "__defineGetter__"; "__defineSetter__";
           "__lookupGetter__"; "__lookupSetter__"]%string.

Inductive prop_value :=
| PUndefined
| PArray (l : list jsstring)
| PInherited.

Fixpoint own_property (o : table) (k : jsstring) : option (list jsstring) :=
  match o with
  | [] => None
  | (k', v) :: o' => if decide (k' = k) then Some v else own_property o' k
  end.

(** [o[k]]: an own property, else a property of [Object.prototype]. *)
Definition get_property (o : table) (k : jsstring) : prop_value :=
  match own_property o k with
  | Some v => PArray v
  | None =>
      if bool_decide (k ∈ object_prototype_names) then PInherited
      else PUndefined
  end.

Definition truthy_prop (v : prop_value) : bool :=
  match v with PUndefined => false | _ => true end.

(** [Object.values(o).flat()] *)
Definition values_flat (o : table) : list jsstring := concat (map snd o).

End Js.
Import Js.

(** ** Typeahead controllers *)

Module Typeahead.

Inductive Display := DisplayNone | DisplayBlock.

Record Dropdown := mkDropdown {
  display : Display;
  items : list jsstring      (* textContent of the child nodes *)
}.

(** What a handler did to its suggestion list, in call order. *)
Inductive RenderOp :=
| HideDropdown
| ShowDropdown (matches : list jsstring).

(** The part of the page the location autocomplete touches.  The country
    and the city input each have a value and may have a [form] ancestor
    ([closest('form')]); [querySelector] from that form finds the other
    input exactly when both are in the same form. *)
Record Page := mkPage {
  country_value : jsstring;
  city_value : jsstring;
  country_form : option nat;
  city_form : option nat;
  currentCountry : jsstring;
  currentCity : jsstring;
  country_dropdown : Dropdown;
  city_dropdown : Dropdown;
  rendered : list RenderOp
}.

Definition set_country_dropdown (d : Dropdown) (p : Page) : Page :=
  mkPage (country_value p) (city_value p) (country_form p) (city_form p)
         (currentCountry p) (currentCity p) d (city_dropdown p) (rendered p).

Definition set_city_dropdown (d : Dropdown) (p : Page) : Page :=
  mkPage (country_value p) (city_value p) (country_form p) (city_form p)
         (currentCountry p) (currentCity p) (country_dropdown p) d (rendered p).

Definition log_render (op : RenderOp) (p : Page) : Page :=
  mkPage (country_value p) (city_value p) (country_form p) (city_form p)
         (currentCountry p) (currentCity p) (country_dropdown p)
         (city_dropdown p) (rendered p ++ [op]).

Inductive Kind := Country | City.

Definition dropdown_of (k : Kind) (p : Page) : Dropdown :=
  match k with Country => country_dropdown p | City => city_dropdown p end.

Definition set_dropdown (k : Kind) (d : Dropdown) (p : Page) : Page :=
  match k with
  | Country => set_country_dropdown d p
  | City => set_city_dropdown d p
  end.

(** [hideDropdown(dropdown)] *)
Definition hideDropdown (k : Kind) (p : Page) : Page :=
  log_render HideDropdown
    (set_dropdown k (mkDropdown DisplayNone (items (dropdown_of k p))) p).

(** [showDropdown(dropdown, matches, input, type)]: the list is emptied,
    stays hidden when there is no match, and is otherwise rebuilt with one
    item per match and displayed. *)
Definition showDropdown (k : Kind) (matches : list jsstring) (p : Page) : Page :=
  log_render (ShowDropdown matches)
    (match matches with
     | [] => set_dropdown k (mkDropdown DisplayNone []) p
     | _ => set_dropdown k (mkDropdown DisplayBlock matches) p
     end).

(** [candidates.filter(c => c.toLowerCase().includes(query)).slice(0, 10)] *)
Definition filter_matches (candidates : list jsstring) (query : jsstring)
  : list jsstring :=
  slice0 10 (filter (λ c, includes (toLowerCase c) query = true) candidates).

(** [form.querySelector('input[name="city"]')] from the country input. *)
Definition city_of_country_form (p : Page) (f : nat) : bool :=
  bool_decide (city_form p = Some f).

Definition clear_city (p : Page) : Page :=
  mkPage (country_value p) [] (country_form p) (city_form p)
         (currentCountry p) [] (country_dropdown p) (city_dropdown p)
         (rendered p).

Definition set_currentCountry (v : jsstring) (p : Page) : Page :=
  mkPage (country_value p) (city_value p) (country_form p) (city_form p)
         v (currentCity p) (country_dropdown p) (city_dropdown p) (rendered p).

Definition set_currentCity (v : jsstring) (p : Page) : Page :=
  mkPage (country_value p) (city_value p) (country_form p) (city_form p)
         (currentCountry p) v (country_dropdown p) (city_dropdown p) (rendered p).

Definition set_country_value (v : jsstring) (p : Page) : Page :=
  mkPage v (city_value p) (country_form p) (city_form p)
         (currentCountry p) (currentCity p) (country_dropdown p)
         (city_dropdown p) (rendered p).

Definition set_city_value (v : jsstring) (p : Page) : Page :=
  mkPage (country_value p) v (country_form p) (city_form p)
         (currentCountry p) (currentCity p) (country_dropdown p)
         (city_dropdown p) (rendered p).

(** The [input] listener of [initializeCountryAutocomplete]; the
    candidate list is the global [countries]. *)
Definition country_on_input (countries : list jsstring) (p : Page) : result Page :=
  let query := toLowerCase (country_value p) in
  let p := set_currentCountry (country_value p) p in
  match country_form p with
  | None => TypeError p
  | Some f =>
      let p := if city_of_country_form p f then clear_city p else p in
      if (length query <? 2)%nat then Ok (hideDropdown Country p)
      else Ok (showDropdown Country (filter_matches countries query) p)
  end.

(** The page when the country listener has recorded the value and
    cleared the city of its form [f], before it looks at the query. *)
Definition after_country_change (p : Page) (f : nat) : Page :=
  let p := set_currentCountry (country_value p) p in
  if city_of_country_form p f then clear_city p else p.

(** [form.querySelector('input[name="country"]')] from the city input. *)
Definition country_of_city_form (p : Page) (f : nat) : bool :=
  bool_decide (country_form p = Some f).

(** The value [cities] holds when the city listener starts to filter:
    [citiesByCountry[selectedCountry]] if the country is non-empty and
    that property is truthy, else every city of every country. *)
Definition selected_cities (citiesByCountry : table) (selectedCountry : jsstring)
  : prop_value :=
  if truthy_str selectedCountry
     && truthy_prop (get_property citiesByCountry selectedCountry)
  then get_property citiesByCountry selectedCountry
  else PArray (values_flat citiesByCountry).

(** The [input] listener of [initializeCityAutocomplete];
    [cities.filter] is a [TypeError] when [cities] is not an array. *)
Definition city_on_input (citiesByCountry : table) (p : Page) : result Page :=
  let query := toLowerCase (city_value p) in
  let p := set_currentCity (city_value p) p in
  if (length query <? 2)%nat then Ok (hideDropdown City p)
  else
    match city_form p with
    | None => TypeError p
    | Some f =>
        let selectedCountry :=
          if country_of_city_form p f then country_value p else [] in
        match selected_cities citiesByCountry selectedCountry with
        | PArray cities =>
            Ok (showDropdown City (filter_matches cities query) p)
        | _ => TypeError p
        end
    end.

(** The [click] listener [showDropdown] puts on the item for [m]. *)
Definition item_on_click (k : Kind) (m : jsstring) (p : Page) : result Page :=
  match k with
  | Country =>
      let p := set_currentCountry m (set_country_value m p) in
      match country_form p with
      | None => TypeError p
      | Some f =>
          let p := if city_of_country_form p f then clear_city p else p in
          Ok (hideDropdown Country p)
      end
  | City =>
      Ok (hideDropdown City (set_currentCity m (set_city_value m p)))
  end.

(** *** The debug variant ([setupCountryAutocomplete] and friends) *)


Definition set_value (k : Kind) (v : jsstring) (p : Page) : Page :=
  match k with
  | Country => set_country_value v p
  | City => set_city_value v p
  end.



(** The [click] listener [showDropdownWithDebug] puts on the item for [m]. *)
Definition debug_item_on_click (k : Kind) (m : jsstring) (p : Page) : Page :=
  set_dropdown k (mkDropdown DisplayNone (items (dropdown_of k p)))
    (set_value k m p).

(** *** [InterviewAutocomplete] *)

Record Suggest := mkSuggest {
  input_value : jsstring;
  container : Dropdown
}.

(** The array [showSuggestions] computes before it decides what to
    display: [suggestions.filter(item => item.toLowerCase().includes(value))]. *)
Definition filtered (suggestions : list jsstring) (value : jsstring)
  : list jsstring :=
  filter (λ item, includes (toLowerCase item) value = true) suggestions.

(** [showSuggestions(input, suggestions, container)] *)
Definition showSuggestions (suggestions : list jsstring) (s : Suggest) : Suggest :=
  let value := toLowerCase (input_value s) in
  if negb (truthy_str value)
  then mkSuggest (input_value s) (mkDropdown DisplayNone (items (container s)))
  else
    match filtered suggestions value with
    | [] => mkSuggest (input_value s)
              (mkDropdown DisplayNone (items (container s)))
    | fs => mkSuggest (input_value s) (mkDropdown DisplayBlock fs)
    end.

Definition difficultySuggestions : list jsstring :=
  map lit ["Easy"; "Medium"; "Hard"]%string.

Definition topicSuggestions : list jsstring :=
  map lit
    ["Java"; "Python"; "JavaScript"; "React"; "Node.js"; "SQL";
     "Data Structures"; "Algorithms"; "System Design"; "Machine Learning";
     "Angular"; "Vue.js"; "Spring Boot"; "Django"; "Flask"; "Express.js";
     "MongoDB"; "PostgreSQL"; "MySQL"; "Redis"; "AWS"; "Docker";
     "Kubernetes"; "Git"; "Linux"; "C++"; "C#"; ".NET"; "PHP";
     "Ruby"; "Go"; "Rust"; "Swift"; "Kotlin"; "TypeScript";
     "REST APIs"; "GraphQL"; "Microservices"; "DevOps"; "CI/CD";
     "Testing"; "Cybersecurity"; "Blockchain"; "Cloud Computing";
     "Web Development"; "Mobile Development"; "Game Development";
     "Data Science"; "Artificial Intelligence"; "Deep Learning";
     "Computer Networks"; "Operating Systems"; "Database Design"]%string.

(** The global [countries] of the location autocomplete. *)
Definition countries : list jsstring :=
  map lit
    ["Afghanistan"; "Albania"; "Algeria"; "Andorra"; "Angola"; "Argentina";
     "Armenia"; "Australia"; "Austria"; "Azerbaijan"; "Bahrain";
     "Bangladesh"; "Belarus"; "Belgium"; "Bolivia";
     "Bosnia and Herzegovina"; "Brazil"; "Bulgaria"; "Cambodia"; "Canada";
     "Chile"; "China"; "Colombia"; "Costa Rica"; "Croatia";
     "Czech Republic"; "Denmark"; "Ecuador"; "Egypt"; "Estonia"; "Finland";
     "France"; "Georgia"; "Germany"; "Ghana"; "Greece"; "Hungary";
     "Iceland"; "India"; "Indonesia"; "Iran"; "Iraq"; "Ireland"; "Israel";
     "Italy"; "Japan"; "Jordan"; "Kazakhstan"; "Kenya"; "Kuwait"; "Latvia";
     "Lebanon"; "Lithuania"; "Luxembourg"; "Malaysia"; "Mexico"; "Morocco";
     "Netherlands"; "New Zealand"; "Nigeria"; "Norway"; "Pakistan"; "Peru";
     "Philippines"; "Poland"; "Portugal"; "Qatar"; "Romania"; "Russia";
     "Saudi Arabia"; "Singapore"; "Slovakia"; "Slovenia"; "South Africa";
     "South Korea"; "Spain"; "Sri Lanka"; "Sweden"; "Switzerland";
     "Taiwan"; "Thailand"; "Turkey"; "Ukraine"; "United Arab Emirates";
     "United Kingdom"; "United States"; "Uruguay"; "Venezuela";
     "Vietnam"]%string.

(** The keys of the global [citiesByCountry], each with its first three
    cities. *)
Definition citiesByCountry_excerpt : table :=
  [(lit "United States", map lit ["New York"; "Los Angeles"; "Chicago"]%string);
   (lit "Canada", map lit ["Toronto"; "Montreal"; "Calgary"]%string);
   (lit "India", map lit ["Mumbai"; "Delhi"; "Bangalore"]%string);
   (lit "United Kingdom", map lit ["London"; "Birmingham"; "Manchester"]%string);
   (lit "Germany", map lit ["Berlin"; "Hamburg"; "Munich"]%string)].

(** A page with both inputs in one form, nothing typed, lists closed. *)
Definition blank_page : Page :=
  mkPage [] [] (Some O) (Some O) [] []
         (mkDropdown DisplayNone []) (mkDropdown DisplayNone []) [].

End Typeahead.

(** ** Dialogs *)

Module Dom.

(** The parts of [document.body] the dialog scripts write. *)
Record Body := mkBody {
  modal_open : bool;            (* classList contains 'modal-open' *)
  overflow : jsstring;          (* style.overflow *)
  paddingRight : jsstring       (* style.paddingRight *)
}.

(** [body.classList.remove('modal-open')], [style.overflow = ''],
    [style.paddingRight = '']. *)
Definition reset_body (b : Body) : Body := mkBody false [] [].

Definition add_modal_open (b : Body) : Body :=
  mkBody true (overflow b) (paddingRight b).

End Dom.
Import Dom.

(** *** The emergency modal fix script *)

Module Emergency.

(** A modal a [data-bs-target] selector resolves to. *)
Record ModalEl := mkModalEl {
  shown : bool;                      (* classList contains 'show' *)
  displayed : bool;                  (* style.display is 'block' *)
  close_listeners : list jsstring    (* click listeners on its close
                                        controls: the modal each closes *)
}.

(** A [.modal-backdrop] node the script appended, with the modal its
    click listener closes. *)
Record Backdrop := mkBackdrop {
  node : nat;
  closes : jsstring
}.

Record Doc := mkDoc {
  modal_els : gmap (list N) ModalEl;   (* by selector *)
  backdrops : list Backdrop;           (* in document order *)
  body : Body;
  keydown_listeners : list jsstring;   (* on [document]: the modal each closes *)
  next_node : nat
}.

(** [closeModal(modal)]: [document.querySelector('.modal-backdrop')] is
    the first backdrop in document order, and only that one is removed. *)
Definition closeModal (m : jsstring) (d : Doc) : Doc :=
  mkDoc (alter (λ e, mkModalEl false false (close_listeners e)) m (modal_els d))
        (tail (backdrops d))
        (reset_body (body d))
        (keydown_listeners d)
        (next_node d).

(** The click listener of a [data-bs-toggle="modal"] trigger whose
    [data-bs-target] is [sel]. *)
Definition trigger_click (sel : jsstring) (d : Doc) : Doc :=
  match modal_els d !! sel with
  | None => d
  | Some e =>
      mkDoc (<[sel := mkModalEl true true (close_listeners e ++ [sel])]> (modal_els d))
            (backdrops d ++ [mkBackdrop (next_node d) sel])
            (add_modal_open (body d))
            (keydown_listeners d ++ [sel])
            (S (next_node d))
  end.

(** A click on a close control of modal [m] runs every listener on it. *)
Definition close_click (m : jsstring) (d : Doc) : Doc :=
  match modal_els d !! m with
  | None => d
  | Some e => foldl (λ d t, closeModal t d) d (close_listeners e)
  end.

(** A click on the backdrop node [n], if it is still in the document. *)
Definition backdrop_click (n : nat) (d : Doc) : Doc :=
  match list_find (λ b, node b = n) (backdrops d) with
  | None => d
  | Some (_, b) => closeModal (closes b) d
  end.

Definition is_shown (m : jsstring) (d : Doc) : bool :=
  match modal_els d !! m with
  | Some e => shown e
  | None => false
  end.

(** An Escape [keydown]: every listener on [document] runs, and closes
    its modal if that modal still has the class [show]. *)
Definition escape_key (d : Doc) : Doc :=
  foldl (λ d t, if is_shown t d then closeModal t d else d)
        d (keydown_listeners d).

Inductive Op :=
| TriggerClick (sel : jsstring)
| CloseClick (m : jsstring)
| BackdropClick (n : nat)
| EscapeKey.

Definition step (d : Doc) (o : Op) : Doc :=
  match o with
  | TriggerClick sel => trigger_click sel d
  | CloseClick m => close_click m d
  | BackdropClick n => backdrop_click n d
  | EscapeKey => escape_key d
  end.

Definition run (ops : list Op) (d : Doc) : Doc := foldl step d ops.

(** The document when the script has finished its start-up pass: hanging
    backdrops removed, body reset, no listener of the script yet. *)
Definition start (ids : list jsstring) : Doc :=
  mkDoc (list_to_map (map (λ i, (i, mkModalEl false false [])) ids))
        [] (mkBody false [] []) [] 0.

Definition is_trigger (o : Op) : bool :=
  match o with TriggerClick _ => true | _ => false end.

(** Every trigger click of the sequence happens while no backdrop is in
    the document. *)
Fixpoint opens_when_closed (ops : list Op) (d : Doc) : Prop :=
  match ops with
  | [] => True
  | o :: ops' =>
      (is_trigger o = true → backdrops d = [])
      ∧ opens_when_closed ops' (step d o)
  end.

End Emergency.

(** *** [ModalManager] *)

Module Manager.

Inductive EventType :=
| TouchStart | TouchMove | TouchEnd | Click | KeyDown | HiddenBsModal.

#[global] Instance EventType_eq_dec : EqDecision EventType.
Proof. solve_decision. Defined.

(** The listeners [attachEventListeners] installs; the instance a
    listener hides is the one captured when it was installed. *)
Inductive Listener :=
| StopPropagation
| HideOnDismiss (inst : nat)
| HideOnSelfClick (inst : nat)
| HideOnEscape (inst : nat)
| CleanupOnHidden.

Record ModalElement := mkModalElement {
  el_id : jsstring;
  has_fade : bool;
  tabindex : option jsstring;
  has_dialog : bool;                               (* contains .modal-dialog *)
  el_listeners : list (EventType * Listener);      (* on the element *)
  dismiss_listeners : list Listener;               (* click, on each
                                                      [data-bs-dismiss="modal"] *)
  inner_listeners : list (EventType * Listener)    (* on each descendant *)
}.

Inductive Warning :=
| FailedToInitialize (id : jsstring)
| ErrorDisposing (id : jsstring)
| ModalNotFound (id : jsstring).

Record State := mkState {
  modals : gmap (list N) nat;     (* this.modals: element id to instance *)
  elements : list ModalElement;   (* querySelectorAll('.modal') *)
  backdrops : list nat;           (* .modal-backdrop nodes *)
  body : Body;
  dispose_calls : list nat;       (* instances dispose() was called on *)
  next_inst : nat;
  console : list Warning
}.

(** [ensureModalStructure(modalElement)]: a synthesized [.modal-dialog]
    takes the old content as fresh nodes, which carry no listener.  Each
    node of the scanned list is followed on its own: when modals are
    nested, the scan still visits the node of the inner modal it found at
    the beginning, also after the outer modal has been rebuilt and the
    document holds a copy of the inner one instead. *)
Definition ensureModalStructure (e : ModalElement) : ModalElement :=
  if has_dialog e
  then mkModalElement (el_id e) true (Some (lit "-1")) true
         (el_listeners e) (dismiss_listeners e) (inner_listeners e)
  else mkModalElement (el_id e) true (Some (lit "-1")) true
         (el_listeners e) [] [].

(** [attachEventListeners(modalElement, modalInstance)] *)
Definition attachEventListeners (inst : nat) (e : ModalElement) : ModalElement :=
  mkModalElement (el_id e) (has_fade e) (tabindex e) (has_dialog e)
    (el_listeners e ++
       [(TouchStart, StopPropagation); (TouchMove, StopPropagation);
        (TouchEnd, StopPropagation); (Click, HideOnSelfClick inst);
        (KeyDown, HideOnEscape inst); (HiddenBsModal, CleanupOnHidden)])
    (dismiss_listeners e ++ [HideOnDismiss inst])
    (inner_listeners e ++
       [(TouchStart, StopPropagation); (TouchEnd, StopPropagation)]).

Section WithBootstrap.

(** The dialog primitive of the UI framework, which is not part of
    the repository: whether [new bootstrap.Modal(element)] throws for
    the element with a given id, whether [dispose()] throws, and what
    [show()] and [hide()] of an instance do. *)
Variable ctor_throws : jsstring → bool.
Variable dispose_throws : nat → bool.
Variable bs_show bs_hide : nat → State → result State.

(** [cleanup()]; the order in which [forEach] visits the handles is not
    kept by the map, so neither is the order of the [dispose()] calls. *)
Definition dispose_one (s : State) (kv : jsstring * nat) : State :=
  mkState (modals s) (elements s) (backdrops s) (body s)
          (dispose_calls s ++ [kv.2]) (next_inst s)
          (if dispose_throws kv.2
           then console s ++ [ErrorDisposing kv.1] else console s).

Definition cleanup (s : State) : State :=
  let s := foldl dispose_one s (map_to_list (modals s)) in
  mkState ∅ (elements s) [] (reset_body (body s))
          (dispose_calls s) (next_inst s) (console s).

(** The body of the [forEach] of [initializeModals], for one element;
    [done] are the elements already visited. *)
Definition init_one (acc : State * list ModalElement) (e : ModalElement)
  : State * list ModalElement :=
  let '(s, done) := acc in
  let e := ensureModalStructure e in
  if ctor_throws (el_id e)
  then (mkState (modals s) (elements s) (backdrops s) (body s)
                (dispose_calls s) (next_inst s)
                (console s ++ [FailedToInitialize (el_id e)]),
        done ++ [e])
  else (mkState (<[el_id e := next_inst s]> (modals s)) (elements s)
                (backdrops s) (body s) (dispose_calls s)
                (S (next_inst s)) (console s),
        done ++ [attachEventListeners (next_inst s) e]).

(** [initializeModals()] *)
Definition initializeModals (s : State) : State :=
  let s := cleanup s in
  let '(s, es) := foldl init_one (s, []) (elements s) in
  mkState (modals s) es (backdrops s) (body s)
          (dispose_calls s) (next_inst s) (console s).

(** [show(modalId)] *)
Definition show (modalId : jsstring) (s : State) : result State :=
  match modals s !! modalId with
  | Some inst => bs_show inst s
  | None =>
      Ok (mkState (modals s) (elements s) (backdrops s) (body s)
                  (dispose_calls s) (next_inst s)
                  (console s ++ [ModalNotFound modalId]))
  end.

(** [hide(modalId)] *)
Definition hide (modalId : jsstring) (s : State) : result State :=
  match modals s !! modalId with
  | Some inst => bs_hide inst s
  | None => Ok s
  end.

End WithBootstrap.

(** The [hidden.bs.modal] listener: every backdrop is removed and the
    body is restored. *)
Definition cleanup_on_hidden (s : State) : State :=
  mkState (modals s) (elements s) [] (reset_body (body s))
          (dispose_calls s) (next_inst s) (console s).

(** The listeners of an element that run when [ev] is dispatched on it. *)
Definition listeners_for (ev : EventType) (e : ModalElement) : list Listener :=
  map snd (filter (λ l, l.1 = ev) (el_listeners e)).

(** Dispatching [hidden.bs.modal] on an element: each of its listeners
    for that event runs once. *)
Definition dispatch_hidden (e : ModalElement) (s : State) : State :=
  foldl (λ s l, match l with CleanupOnHidden => cleanup_on_hidden s | _ => s end)
        s (listeners_for HiddenBsModal e).

(** A document with the given modal elements, before the first scan. *)
Definition fresh (es : list ModalElement) : State :=
  mkState ∅ es [] (mkBody false [] []) [] 0 [].

(** The ids a scan registers: those of the elements for which the
    constructor does not throw. *)
Definition registered_ids (ctor_throws : jsstring → bool)
  (es : list ModalElement) : gset (list N) :=
  list_to_set (filter (λ i, ctor_throws i = false) (map el_id es)).

(** A page with one modal, well formed and without listeners. *)
Definition one_modal : list ModalElement :=
  [mkModalElement (lit "loginModal") true None true [] [] []].

(** A dialog primitive that never throws. *)
Definition never_throws {K : Type} (_ : K) : bool := false.

(** That page after one scan, and after a second one. *)
Definition scanned_once : State :=
  initializeModals never_throws never_throws (fresh one_modal).

Definition scanned_twice : State :=
  initializeModals never_throws never_throws scanned_once.

End Manager.

(** ** [InterviewApp.utils.debounce] *)

Module Debounce.

Section Debounce.

(** The arguments of one call of the debounced function. *)
Context {A : Type}.

Record Timer := mkTimer {
  timer_id : nat;
  due : N;
  args : A
}.

(** The timers of the event loop that belong to one debounced function,
    with the variable [timeout] of its closure and the calls of [func]
    made so far. *)
Record Loop := mkLoop {
  now : N;
  pending : list Timer;      (* set and neither fired nor cleared *)
  next_timer : nat;
  timeout : option nat;
  invoked : list A
}.

Definition clearTimeout (id : option nat) (l : Loop) : Loop :=
  mkLoop (now l)
         (filter (λ tm, Some (timer_id tm) ≠ id) (pending l))
         (next_timer l) (timeout l) (invoked l).

(** [later]: [clearTimeout(timeout); func(...args)] *)
Definition later (a : A) (l : Loop) : Loop :=
  let l := clearTimeout (timeout l) l in
  mkLoop (now l) (pending l) (next_timer l) (timeout l) (invoked l ++ [a]).

(** The function [debounce(func, wait)] returns, called with [a]:
    [clearTimeout(timeout); timeout = setTimeout(later, wait)]. *)
Definition executedFunction (wait : N) (a : A) (l : Loop) : Loop :=
  let l := clearTimeout (timeout l) l in
  mkLoop (now l)
         (pending l ++ [mkTimer (next_timer l) (now l + wait) a])
         (S (next_timer l))
         (Some (next_timer l))
         (invoked l).

(** Timers that are due at time [t] fire one after the other. *)
Fixpoint fire_due (fuel : nat) (t : N) (l : Loop) : Loop :=
  match fuel with
  | O => l
  | S fuel' =>
      match list_find (λ tm, due tm ≤ t) (pending l) with
      | None => l
      | Some (_, tm) =>
          fire_due fuel' t
            (later (args tm)
               (mkLoop (now l)
                  (filter (λ tm', timer_id tm' ≠ timer_id tm) (pending l))
                  (next_timer l) (timeout l) (invoked l)))
      end
  end.

(** Time passes until [t]. *)
Definition advance (t : N) (l : Loop) : Loop :=
  let l := fire_due (length (pending l)) t l in
  mkLoop (N.max (now l) t) (pending l) (next_timer l) (timeout l) (invoked l).

Inductive Event :=
| Call (t : N) (a : A)      (* the debounced function is called at [t] *)
| Idle (t : N).             (* nothing happens until [t] *)

(** One event.  A call is taken to come when the event loop has run
    every timer that was due by then; [DebounceMore.turn_step] is the
    step without that assumption, in which a call cancels a timer that
    is due but has not run yet. *)
Definition step (wait : N) (l : Loop) (e : Event) : Loop :=
  match e with
  | Call t a => executedFunction wait a (advance t l)
  | Idle t => advance t l
  end.

Definition run (wait : N) (es : list Event) (l : Loop) : Loop :=
  foldl (step wait) l es.

Definition init : Loop := mkLoop 0 [] 0 None [].

(** One timer is pending, set by the latest call: the shape of the
    loop between the calls of a burst. *)
Definition armed (nw d : N) (id : nat) (a : A) (inv : list A) : Loop :=
  mkLoop nw [mkTimer id d a] (S id) (Some id) inv.

(** Calls within the debounce window: each comes before the timer set
    by the previous one (at [t0]) is due. *)
Fixpoint chained (wait : N) (t0 : N) (calls : list (N * A)) : Prop :=
  match calls with
  | [] => True
  | (t, _) :: calls' => t0 ≤ t ∧ t < t0 + wait ∧ chained wait t calls'
  end.

Definition last_call (t0 : N) (a0 : A) (calls : list (N * A)) : N * A :=
  List.last calls (t0, a0).

End Debounce.

Arguments Timer : clear implicits.
Arguments Loop : clear implicits.
Arguments Event : clear implicits.

End Debounce.

(** ** Service workers *)

Module ServiceWorker.

(** [caches]: cache name to the URLs stored under it. *)
Abbreviation CacheStorage := (gmap (list N) (list (list N))).

Inductive Worker := Job2Hire | Recruiter | Candidate.

Definition CACHE_NAME (w : Worker) : jsstring :=
  match w with
  | Job2Hire => lit "job2hire-v1.0.0"
  | Recruiter => lit "ez2hire-recruiter-v1.0"
  | Candidate => lit "ez2hire-candidate-v1.0"
  end.

(** [caches.keys()] *)
Definition keys (caches : CacheStorage) : list jsstring :=
  (map_to_list caches).*1.

(** The [activate] listener of the Job2Hire worker, once the promise
    given to [waitUntil] has settled. *)
Definition job2hire_activate (caches : CacheStorage) : CacheStorage :=
  foldl (λ cs cacheName,
           if decide (cacheName ≠ CACHE_NAME Job2Hire)
           then delete cacheName cs else cs)
        caches (keys caches).

(** Activation of a worker: the recruiter and candidate workers register
    no [activate] listener. *)
Definition activate (w : Worker) (caches : CacheStorage) : CacheStorage :=
  match w with
  | Job2Hire => job2hire_activate caches
  | Recruiter => caches
  | Candidate => caches
  end.

End ServiceWorker.

(** ** [InterviewApp.utils.formatTime] *)

Module FormatTime.

Fixpoint digits (fuel : nat) (n : N) (acc : jsstring) : jsstring :=
  match fuel with
  | O => acc
  | S fuel' =>
      let acc' := (48 + n mod 10) :: acc in
      if n <? 10 then acc' else digits fuel' (n / 10) acc'
  end.

(** [n.toString()] for a non-negative integer below 2^53. *)
Definition toString (n : N) : jsstring :=
  digits (S (N.to_nat (N.log2 n))) n [].

(** [s.padStart(targetLength, padString)] *)
Definition padStart (targetLength : nat) (padString : jsstring) (s : jsstring)
  : jsstring :=
  if (targetLength <=? length s)%nat then s
  else
    match padString with
    | [] => s
    | _ =>
        let fill := targetLength - length s in
        take fill (concat (replicate fill padString)) ++ s
    end%nat.

(** [main-fixed.js] *)
Definition formatTime_fixed (seconds : N) : jsstring :=
  let mins := seconds / 60 in
  let secs := seconds mod 60 in
  padStart 2 (lit "0") (toString mins) ++ lit ":"
    ++ padStart 2 (lit "0") (toString secs).

(** The other copy of the main script. *)
Definition formatTime_main (seconds : N) : jsstring :=
  let mins := seconds / 60 in
  let secs := seconds mod 60 in
  toString mins ++ lit ":" ++ padStart 2 (lit "0") (toString secs).

End FormatTime.

(** ** What the specification says the typeahead computes *)

Module Spec.

(** [q] is a substring of [s]: it is what [s] holds at some offset. *)
Definition substring_of (q s : jsstring) : Prop :=
  Exists (λ i, take (length q) (drop i s) = q) (seq 0 (S (length s))).

(** Case-insensitive substring match of a candidate against a query. *)
Definition matches_query (query candidate : jsstring) : Prop :=
  substring_of (toLowerCase query) (toLowerCase candidate).

(** The candidates matching the query, in the order of the candidate
    list. *)
Definition all_matches (candidates : list jsstring) (query : jsstring)
  : list jsstring :=
  filter (matches_query query) candidates.

(** ... truncated to the first 10 matches. *)
Definition spec_matches (candidates : list jsstring) (query : jsstring)
  : list jsstring :=
  take 10 (all_matches candidates query).

End Spec.

(** ** Sequences of input events on the country field *)

Module Typing.
Import Typeahead.




End Typing.

(** ** The location autocomplete as a whole *)

Module Location.
Import Typeahead.

(** [getSelectedLocation()] *)
Definition getSelectedLocation (p : Page) : jsstring * jsstring :=
  (currentCountry p, currentCity p).

(** [buildLocationString(country, city)] *)
Definition buildLocationString (country city : jsstring) : jsstring :=
  if truthy_str country && truthy_str city then city ++ lit ", " ++ country
  else if truthy_str country then country
  else if truthy_str city then city
  else [].

(** The page a listener leaves, whether it returned or threw. *)
Definition state_of (r : result Page) : Page :=
  match r with Ok p => p | TypeError p => p end.

(** What the user does on the page.  A click bubbles to [document], where
    the listener of each input hides that input's list unless the click was
    on the input or inside the list; a throw in one listener does not keep
    the others from running. *)
Inductive Event :=
| TypeCountry (v : jsstring)
| TypeCity (v : jsstring)
| ClickCountryItem (m : jsstring)
| ClickCityItem (m : jsstring)
| ClickElsewhere.

Definition step (countries : list jsstring) (citiesByCountry : table)
  (p : Page) (e : Event) : Page :=
  match e with
  | TypeCountry v =>
      state_of (country_on_input countries (set_country_value v p))
  | TypeCity v =>
      state_of (city_on_input citiesByCountry (set_city_value v p))
  | ClickCountryItem m =>
      hideDropdown City (state_of (item_on_click Country m p))
  | ClickCityItem m =>
      hideDropdown Country (state_of (item_on_click City m p))
  | ClickElsewhere =>
      hideDropdown City (hideDropdown Country p)
  end.

Definition run (countries : list jsstring) (citiesByCountry : table)
  (es : list Event) (p : Page) : Page :=
  foldl (step countries citiesByCountry) p es.

(** The globals hold what the two inputs show. *)
Definition in_sync (p : Page) : Prop :=
  getSelectedLocation p = (country_value p, city_value p).

End Location.

(** ** Bursts and pauses of calls of a debounced function *)

Module DebounceMore.
Import Debounce.

Section Calls.
Context {A : Type}.

(** The arguments of the calls among the events, in order. *)
Fixpoint call_args (es : list (Event A)) : list A :=
  match es with
  | [] => []
  | Call _ a :: es' => a :: call_args es'
  | Idle _ :: es' => call_args es'
  end.

(** *** Calls that do not wait for the event loop

    A timer that is due runs only when the event loop takes its next
    turn; a call made before that turn finds the timer still pending, and
    its [clearTimeout] cancels it.  Here a call only lets the clock reach
    its time, and timers fire in the turns of the loop. *)
Definition tick (t : N) (l : Loop A) : Loop A :=
  mkLoop (N.max (now l) t) (pending l) (next_timer l) (timeout l)
         (invoked l).

(** [Call t a]: the debounced function is called at [t], no turn of the
    loop having been taken since the event before; [Idle t]: the loop
    takes its turns until [t], and the timers due by then fire. *)
Definition turn_step (wait : N) (l : Loop A) (e : Event A) : Loop A :=
  match e with
  | Call t a => executedFunction wait a (tick t l)
  | Idle t => advance t l
  end.

Definition turn_run (wait : N) (es : list (Event A)) (l : Loop A) : Loop A :=
  foldl (turn_step wait) l es.

(** Calls [(t, a, T)]: made at [t] with [a], and followed by a turn of
    the loop at [T]. *)
Definition calls_and_turns (calls : list (N * A * N)) : list (Event A) :=
  flat_map (λ c, [Call c.1.1 c.1.2; Idle c.2]) calls.

(** Each call comes after the turn that followed the previous one (at
    [t0]), and its own turn comes when its timer is due. *)
Fixpoint followed_by_turn (wait : N) (t0 : N) (calls : list (N * A * N))
  : Prop :=
  match calls with
  | [] => True
  | (t, _, T) :: calls' =>
      t0 ≤ t ∧ t + wait ≤ T ∧ followed_by_turn wait T calls'
  end.

(** At most one timer is pending, and it is the one [timeout] names. *)
Definition one_timer (l : Loop A) : Prop :=
  pending l = []
  ∨ ∃ tm, pending l = [tm] ∧ timeout l = Some (timer_id tm).

End Calls.

End DebounceMore.

(** ** [MobileOptimizer] *)

Module Mobile.

(** *** [enhanceAutocomplete(input)] and [triggerAutocomplete(input)] *)

(** An input with the [data-autocomplete] attribute: its value, the timers
    its listener has set, the variable [timeout] of the listener's closure
    and the [detail.value] of the [autocomplete-search] events dispatched
    on it so far. *)
Record Auto := mkAuto {
  au_now : N;
  au_value : jsstring;
  au_pending : list (nat * N);    (* id and due time; neither fired nor cleared *)
  au_next : nat;
  au_timeout : option nat;
  au_dispatched : list jsstring
}.

(** [triggerAutocomplete(input)]: the event carries the value the input
    has when the timer fires. *)
Definition triggerAutocomplete (s : Auto) : Auto :=
  mkAuto (au_now s) (au_value s) (au_pending s) (au_next s) (au_timeout s)
         (au_dispatched s ++ [au_value s]).

Fixpoint au_fire_due (fuel : nat) (t : N) (s : Auto) : Auto :=
  match fuel with
  | O => s
  | S fuel' =>
      match list_find (λ tm, tm.2 ≤ t) (au_pending s) with
      | None => s
      | Some (_, tm) =>
          au_fire_due fuel' t
            (triggerAutocomplete
               (mkAuto (au_now s) (au_value s)
                  (filter (λ tm', tm'.1 ≠ tm.1) (au_pending s))
                  (au_next s) (au_timeout s) (au_dispatched s)))
      end
  end.

(** Time passes until [t]. *)
Definition au_advance (t : N) (s : Auto) : Auto :=
  let s := au_fire_due (length (au_pending s)) t s in
  mkAuto (N.max (au_now s) t) (au_value s) (au_pending s) (au_next s)
         (au_timeout s) (au_dispatched s).

(** The [input] listener: [clearTimeout(timeout);
    timeout = setTimeout(() => this.triggerAutocomplete(input), 300)]. *)
Definition au_on_input (s : Auto) : Auto :=
  mkAuto (au_now s) (au_value s)
         (filter (λ tm, Some tm.1 ≠ au_timeout s) (au_pending s)
          ++ [(au_next s, au_now s + 300)])
         (S (au_next s)) (Some (au_next s)) (au_dispatched s).

Inductive AutoEvent :=
| Typed (t : N) (v : jsstring)     (* the user changes the value: input event *)
| Assigned (t : N) (v : jsstring)  (* a script sets [input.value]: no event *)
| Waited (t : N).

Definition set_au_value (v : jsstring) (s : Auto) : Auto :=
  mkAuto (au_now s) v (au_pending s) (au_next s) (au_timeout s)
         (au_dispatched s).

Definition au_step (s : Auto) (e : AutoEvent) : Auto :=
  match e with
  | Typed t v => au_on_input (set_au_value v (au_advance t s))
  | Assigned t v => set_au_value v (au_advance t s)
  | Waited t => au_advance t s
  end.

Definition au_run (es : list AutoEvent) (s : Auto) : Auto := foldl au_step s es.

Definition au_init (v : jsstring) : Auto := mkAuto 0 v [] 0 None [].

(** Input events that each come less than 300 ms after the previous one
    (at [t0]). *)
Fixpoint au_chained (t0 : N) (inputs : list (N * jsstring)) : Prop :=
  match inputs with
  | [] => True
  | (t, _) :: inputs' => t0 ≤ t ∧ t < t0 + 300 ∧ au_chained t inputs'
  end.

(** The state between the inputs of a burst. *)
Definition au_armed (nw d : N) (v : jsstring) (id : nat) (ds : list jsstring)
  : Auto :=
  mkAuto nw v [(id, d)] (S id) (Some id) ds.

(** *** The sidebar *)

(** [this.sidebar] and [this.mobileOverlay] as found when the optimizer
    was constructed (either may be missing), with their class [show], and
    [document.body.style.overflow]. *)
Record Sidebar := mkSidebar {
  has_sidebar : bool;
  sidebar_show : bool;
  has_overlay : bool;
  overlay_show : bool;
  body_overflow : jsstring;
  isMobile : bool
}.

(** [openMobileSidebar()] *)
Definition openMobileSidebar (s : Sidebar) : Sidebar :=
  if negb (has_sidebar s) then s
  else mkSidebar true true (has_overlay s)
         (if has_overlay s then true else overlay_show s)
         (lit "hidden") (isMobile s).

(** [closeMobileSidebar()] *)
Definition closeMobileSidebar (s : Sidebar) : Sidebar :=
  if negb (has_sidebar s) then s
  else mkSidebar true false (has_overlay s)
         (if has_overlay s then false else overlay_show s)
         [] (isMobile s).

(** [toggleMobileSidebar()] *)
Definition toggleMobileSidebar (s : Sidebar) : Sidebar :=
  if has_sidebar s && sidebar_show s then closeMobileSidebar s
  else openMobileSidebar s.

(** [handleResize()] with [window.innerWidth = newWidth]; [isTablet] and
    the [--vh] property it also sets are not represented. *)
Definition handleResize (newWidth : N) (s : Sidebar) : Sidebar :=
  let wasMobile := isMobile s in
  let s := mkSidebar (has_sidebar s) (sidebar_show s) (has_overlay s)
             (overlay_show s) (body_overflow s) (newWidth <? 768) in
  if wasMobile && negb (isMobile s) then closeMobileSidebar s else s.

Inductive SidebarOp :=
| Toggle | Open | Close | Resize (newWidth : N).

Definition sidebar_step (s : Sidebar) (o : SidebarOp) : Sidebar :=
  match o with
  | Toggle => toggleMobileSidebar s
  | Open => openMobileSidebar s
  | Close => closeMobileSidebar s
  | Resize w => handleResize w s
  end.

(** The overlay is shown and the page scroll is locked exactly when the
    sidebar is shown. *)
Definition sidebar_consistent (s : Sidebar) : Prop :=
  overlay_show s = sidebar_show s
  ∧ body_overflow s = (if sidebar_show s then lit "hidden" else []).

End Mobile.

(** ** Handles of [ModalManager] *)

Module ManagerMore.
Import Manager.

(** Instances are numbered in the order of their construction: every
    instance registered or disposed was made before the next one. *)
Definition handles_known (s : State) : Prop :=
  (∀ id inst, modals s !! id = Some inst → (inst < next_inst s)%nat)
  ∧ (∀ inst, inst ∈ dispose_calls s → (inst < next_inst s)%nat).

(** An element as [ensureModalStructure] leaves it. *)
Definition well_formed (e : ModalElement) : Prop :=
  has_fade e = true ∧ tabindex e = Some (lit "-1") ∧ has_dialog e = true.

(** A page with two modals; the second has no [.modal-dialog]. *)
Definition two_modals : list ModalElement :=
  [mkModalElement (lit "loginModal") true None true [] [] [];
   mkModalElement (lit "signupModal") false None false [] [] []].

End ManagerMore.

(** ** Clicks of the emergency script that open a modal *)

Module EmergencyMore.
Import Emergency.

(** A click on a trigger whose target is on the page. *)
Definition opens (d : Doc) (o : Op) : bool :=
  match o with
  | TriggerClick sel => bool_decide (is_Some (modal_els d !! sel))
  | _ => false
  end.

Definition count_opens (d : Doc) (ops : list Op) : nat :=
  length (filter (λ o, opens d o = true) ops).

End EmergencyMore.

(** ** Service workers: install and fetch *)

Module Worker.
Import ServiceWorker.

(** [CACHE_URLS] of the Job2Hire worker, [urlsToCache] of the other two. *)
Definition CACHE_URLS (w : Worker) : list jsstring :=
  match w with
  | Job2Hire =>
      map lit
        ["/"; "/static/css/style.css"; "/static/css/mobile-responsive.css";
         "/static/css/light-theme.css";
         "/static/css/accessibility-improvements.css";
         "/static/js/mobile-optimizations.js"; "/static/js/form-validation.js";
         "/static/images/logos/job2hire_logo_small.png";
         "/static/images/logos/job2hire_logo_medium.png";
         "/static/images/logos/job2hire_logo_large.png";
         "https://cdn.jsdelivr.net/npm/bootstrap@5.3.0/dist/css/bootstrap.min.css";
         "https://cdn.jsdelivr.net/npm/bootstrap@5.3.0/dist/js/bootstrap.bundle.min.js";
         "https://unpkg.com/feather-icons"]%string
  | Recruiter =>
      map lit
        ["/admin/dashboard"; "/admin/candidates"; "/admin/interviews";
         "/admin/analytics"; "/static/css/mobile-responsive.css";
         "/static/css/light-theme.css"; "/static/js/mobile-optimizations.js";
         "/static/images/ez2source-logo.png"]%string
  | Candidate =>
      map lit
        ["/candidate/dashboard"; "/candidate/profile"; "/candidate/job-search";
         "/candidate/applications"; "/static/css/mobile-responsive.css";
         "/static/css/light-theme.css"; "/static/js/mobile-optimizations.js";
         "/static/images/ez2source-logo.png"]%string
  end.

Definition OFFLINE_URL : jsstring := lit "/offline.html".

(** [cache.put(request, response)] on the URLs a cache holds: an entry for
    the same URL is replaced. *)
Definition put (u : jsstring) (entries : list jsstring) : list jsstring :=
  filter (λ x, x ≠ u) entries ++ [u].

Definition entries_of (name : jsstring) (caches : CacheStorage)
  : list jsstring :=
  default [] (caches !! name).

(** The [install] listener, once the promise given to [waitUntil] has
    settled.  [caches.open] creates the cache if there is none;
    [cache.addAll] stores all the URLs if every one of them can be fetched
    with an ok status ([reachable]) and none otherwise.  The Job2Hire worker
    catches the rejection, the other two let it fail the installation.  The
    result says whether the worker is installed. *)
Definition install (w : Worker) (reachable : jsstring → bool)
  (caches : CacheStorage) : CacheStorage * bool :=
  let name := CACHE_NAME w in
  let entries := entries_of name caches in
  if forallb reachable (CACHE_URLS w)
  then (<[name := foldl (λ c u, put u c) entries (CACHE_URLS w)]> caches, true)
  else (<[name := entries]> caches,
        match w with Job2Hire => true | _ => false end).

Inductive Method := GET | OtherMethod.

Inductive ResponseType := Basic | Cors | Opaque.

Record Response := mkResponse {
  status : N;
  rtype : ResponseType
}.

Definition is_basic (t : ResponseType) : bool :=
  match t with Basic => true | _ => false end.

Record Request := mkRequest {
  url : jsstring;
  method : Method;
  is_document : bool        (* [request.destination === 'document'] *)
}.

(** What the page gets for a request. *)
Inductive Served :=
| NotIntercepted                 (* the listener returns without [respondWith] *)
| FromCache (u : jsstring)       (* the entry stored for [u] *)
| FromNetwork (r : Response)
| NoResponse.                    (* [respondWith] ends with no response *)

(** Some cache holds an entry for [u]. *)
Definition cached (u : jsstring) (caches : CacheStorage) : bool :=
  bool_decide (Exists (λ kv, u ∈ kv.2) (map_to_list caches)).

(** [caches.match(request)]: only a GET request matches an entry. *)
Definition caches_match (r : Request) (caches : CacheStorage) : bool :=
  match method r with
  | GET => cached (url r) caches
  | OtherMethod => false
  end.

(** The [fetch] listener of the recruiter and candidate workers; [net]
    is what [fetch] resolves to, [None] when it rejects. *)
Definition simple_fetch (r : Request) (net : jsstring → option Response)
  (caches : CacheStorage) : Served * CacheStorage :=
  if caches_match r caches then (FromCache (url r), caches)
  else match net (url r) with
       | Some resp => (FromNetwork resp, caches)
       | None => (NoResponse, caches)
       end.

(** The [fetch] listener of the Job2Hire worker, with the cache as it is
    once the [put] it starts has finished. *)
Definition job2hire_fetch (r : Request) (net : jsstring → option Response)
  (caches : CacheStorage) : Served * CacheStorage :=
  match method r with
  | OtherMethod => (NotIntercepted, caches)
  | GET =>
      if caches_match r caches then (FromCache (url r), caches)
      else
        match net (url r) with
        | Some resp =>
            if negb (status resp =? 200)
               || negb (is_basic (rtype resp))
            then (FromNetwork resp, caches)
            else (FromNetwork resp,
                  <[CACHE_NAME Job2Hire :=
                      put (url r) (entries_of (CACHE_NAME Job2Hire) caches)]>
                    caches)
        | None =>
            if is_document r
            then ((if cached OFFLINE_URL caches
                   then FromCache OFFLINE_URL else NoResponse), caches)
            else ((if caches_match r caches
                   then FromCache (url r) else NoResponse), caches)
        end
  end.




Definition fetch (w : Worker) :=
  match w with
  | Job2Hire => job2hire_fetch
  | Recruiter => simple_fetch
  | Candidate => simple_fetch
  end.

(** A network on which every fetch rejects. *)
Definition offline (_ : jsstring) : option Response := None.

Definition always_reachable (_ : jsstring) : bool := true.

End Worker.

(** ** The interview countdown of [main-fixed.js] *)

Module Countdown.

(** [n.toString()] for an integer of magnitude at most 2^53. *)
Definition toString (z : Z) : jsstring :=
  if (z <? 0)%Z then lit "-" ++ FormatTime.toString (Z.to_N (- z))
  else FormatTime.toString (Z.to_N z).

(** [InterviewApp.utils.formatTime] of [main-fixed.js] on any integer:
    [Math.floor] rounds towards minus infinity and [%] takes the sign of
    the dividend. *)
Definition formatTime (seconds : Z) : jsstring :=
  let mins := (seconds / 60)%Z in
  let secs := Z.rem seconds 60 in
  FormatTime.padStart 2 (lit "0") (toString mins) ++ lit ":"
    ++ FormatTime.padStart 2 (lit "0") (toString secs).

Record Timer := mkTimer {
  timeLeft : Z;
  shown : option jsstring;     (* [timerElement.textContent], once set *)
  submits : nat;               (* calls of [form.submit()] *)
  has_form : bool              (* [#interviewForm] is on the page *)
}.

(** What [parseInt] makes of the attribute: an integer, or [NaN]
    ([None]) when the attribute is missing or does not begin with a
    number.  The countdown computes exactly on integers of magnitude at
    most 2^53. *)
Definition safe (parsed : option Z) : bool :=
  match parsed with
  | None => true
  | Some d => (Z.abs d <=? 2 ^ 53)%Z
  end.

(** [parseInt(timerElement.getAttribute('data-duration')) || 1800]:
    [NaN] and zero are falsy, a negative number is not. *)
Definition duration_of (parsed : option Z) : Z :=
  match parsed with
  | None => 1800
  | Some 0%Z => 1800
  | Some d => d
  end.

(** [updateTimer()] *)
Definition updateTimer (t : Timer) : Timer :=
  let text := Some (formatTime (timeLeft t)) in
  if (timeLeft t <=? 0)%Z
  then mkTimer (timeLeft t) text
         (if has_form t then S (submits t) else submits t) (has_form t)
  else mkTimer (timeLeft t - 1) text (submits t) (has_form t).

(** The timer after [n] calls of [updateTimer]: the initial call and the
    ticks of the interval, which is never cleared. *)
Definition after_calls (parsed : option Z) (form : bool) (n : nat) : Timer :=
  Nat.iter n updateTimer (mkTimer (duration_of parsed) None 0 form).

End Countdown.

(** ** [InterviewApp.ui.showLoading] and [hideLoading] of the main script *)

Module Loading.

(** An element on the page: its content as the string [innerHTML] gives
    and takes, and the [data-original-text] attribute
    ([dataset.originalText]). *)
Record Element := mkElement {
  disabled : bool;
  innerHTML : jsstring;
  originalText : option jsstring
}.

Definition quoted (s : jsstring) : jsstring := [34] ++ s ++ [34].

(** The markup [showLoading] writes for [text]. *)
Definition spinner (text : jsstring) : jsstring :=
  [10] ++ replicate 16 32
  ++ lit "<span class=" ++ quoted (lit "spinner-border spinner-border-sm me-2")
  ++ lit " role=" ++ quoted (lit "status")
  ++ lit " aria-hidden=" ++ quoted (lit "true") ++ lit "></span>"
  ++ [10] ++ replicate 16 32 ++ text ++ [10] ++ replicate 12 32.

(** [showLoading(element, text)] *)
Definition showLoading (text : jsstring) (e : Element) : Element :=
  mkElement true (spinner text) (Some (innerHTML e)).

(** [hideLoading(element)]: [dataset.originalText] is falsy when the
    attribute is missing and when it is the empty string. *)
Definition hideLoading (e : Element) : Element :=
  match originalText e with
  | Some (c :: s) => mkElement false (c :: s) None
  | _ => e
  end.

End Loading.

(** ** Regular expressions, as the validators use them *)

Module Regex.

(** A pattern without anchors; every pattern of the scripts is written
    between [^] and [$], so [test] asks whether the whole string matches. *)
Inductive re :=
| Void
| Eps
| Class (p : N → bool)
| Cat (r1 r2 : re)
| Alt (r1 r2 : re)
| Star (r : re).

Fixpoint nullable (r : re) : bool :=
  match r with
  | Void => false
  | Eps => true
  | Class _ => false
  | Cat r1 r2 => nullable r1 && nullable r2
  | Alt r1 r2 => nullable r1 || nullable r2
  | Star _ => true
  end.

(** What is left to match after the code unit [c]. *)
Fixpoint deriv (c : N) (r : re) : re :=
  match r with
  | Void => Void
  | Eps => Void
  | Class p => if p c then Eps else Void
  | Cat r1 r2 =>
      if nullable r1 then Alt (Cat (deriv c r1) r2) (deriv c r2)
      else Cat (deriv c r1) r2
  | Alt r1 r2 => Alt (deriv c r1) (deriv c r2)
  | Star r' => Cat (deriv c r') (Star r')
  end.

(** [/^r$/.test(s)] *)
Fixpoint test (r : re) (s : jsstring) : bool :=
  match s with
  | [] => nullable r
  | c :: s' => test (deriv c r) s'
  end.

(** [r+], [r?], [r{n}], [r{0,n}], [r{n,}] *)
Definition Plus (r : re) : re := Cat r (Star r).
Definition Opt (r : re) : re := Alt r Eps.

Fixpoint Rep (n : nat) (r : re) : re :=
  match n with O => Eps | S n' => Cat r (Rep n' r) end.

Fixpoint UpTo (n : nat) (r : re) : re :=
  match n with O => Eps | S n' => Opt (Cat r (UpTo n' r)) end.

Definition AtLeast (n : nat) (r : re) : re := Cat (Rep n r) (Star r).

(** A literal string. *)
Fixpoint Lit (s : jsstring) : re :=
  match s with [] => Eps | c :: s' => Cat (Class (N.eqb c)) (Lit s') end.

(** The strings of a pattern. *)
Inductive Matches : re → jsstring → Prop :=
| MEps : Matches Eps []
| MClass p c : p c = true → Matches (Class p) [c]
| MCat r1 r2 s1 s2 :
    Matches r1 s1 → Matches r2 s2 → Matches (Cat r1 r2) (s1 ++ s2)
| MAltL r1 r2 s : Matches r1 s → Matches (Alt r1 r2) s
| MAltR r1 r2 s : Matches r2 s → Matches (Alt r1 r2) s
| MStar0 r : Matches (Star r) []
| MStarS r s1 s2 :
    Matches r s1 → Matches (Star r) s2 → Matches (Star r) (s1 ++ s2).

(** [\s]: white space and line terminators. *)
Definition is_ws (c : N) : bool :=
  bool_decide (c ∈ [9; 10; 11; 12; 13; 32; 160; 5760; 8232; 8233; 8239; 8287;
                    12288; 65279])
  || ((8192 <=? c) && (c <=? 8202)).

(** [\d] *)
Definition is_digit (c : N) : bool := (48 <=? c) && (c <=? 57).

(** [.] : any code unit but a line terminator. *)
Definition is_dot (c : N) : bool :=
  negb (bool_decide (c ∈ [10; 13; 8232; 8233])).

(** [[^\s@]] *)
Definition not_ws_at (c : N) : bool := negb (is_ws c) && negb (c =? 64).

(** [/^[^\s@]+@[^\s@]+\.[^\s@]+$/] *)
Definition emailRegex : re :=
  Cat (Plus (Class not_ws_at))
    (Cat (Class (N.eqb 64))
       (Cat (Plus (Class not_ws_at))
          (Cat (Class (N.eqb 46)) (Plus (Class not_ws_at))))).

(** [InterviewApp.utils.isValidEmail(email)] *)
Definition isValidEmail (email : jsstring) : bool := test emailRegex email.

(** [String.prototype.trim] *)
Fixpoint trimStart (s : jsstring) : jsstring :=
  match s with
  | [] => []
  | c :: s' => if is_ws c then trimStart s' else s
  end.

Definition trimEnd (s : jsstring) : jsstring :=
  reverse (trimStart (reverse s)).

Definition trim (s : jsstring) : jsstring := trimEnd (trimStart s).

End Regex.

(** ** [FormValidator] *)

Module FormValidator.
Import Regex.

(** A form field with the attributes [validateField] reads, and the error
    display of [showFieldError] and [clearFieldError]: the class
    [form-field-error] on the field and the [.form-error-message] element
    of its parent, with its text and whether it is displayed. *)
Record Field := mkField {
  data_validate : option jsstring;
  required : bool;
  data_required : bool;
  value : jsstring;
  data_field_name : option jsstring;
  name : option jsstring;
  placeholder : option jsstring;
  error_class : bool;
  error_message : option (jsstring * bool)
}.

Inductive validator :=
| NoValidator                                  (* [undefined] *)
| Validator (pattern : re) (message : jsstring)
| Inherited.                                   (* a property of [Object.prototype] *)

(** [this.validators[validationType]] *)
Definition validators (validationType : jsstring) : validator :=
  if decide (validationType = lit "email")
  then Validator emailRegex (lit "Please enter a valid email address")
  else if decide (validationType = lit "phone")
  then Validator
         (Cat (Opt (Class (N.eqb 43)))
            (Cat (Class (λ c, (49 <=? c) && (c <=? 57)))
               (UpTo 15 (Class is_digit))))
         (lit "Please enter a valid phone number")
  else if decide (validationType = lit "password")
  then Validator (AtLeast 8 (Class is_dot))
         (lit "Password must be at least 8 characters long")
  else if decide (validationType = lit "url")
  then Validator
         (Cat (Lit (lit "http"))
            (Cat (Opt (Class (N.eqb 115)))
               (Cat (Lit (lit "://"))
                  (Cat (Class (λ c, negb (is_ws c)
                                    && negb (bool_decide (c ∈ [36; 46; 63; 35]))))
                     (Cat (Class is_dot)
                        (Star (Class (λ c, negb (is_ws c)))))))))
         (lit "Please enter a valid URL")
  else if decide (validationType = lit "text")
  then Validator (Plus (Class is_dot)) (lit "This field is required")
  else if decide (validationType = lit "number")
  then Validator (Plus (Class is_digit)) (lit "Please enter a valid number")
  else if bool_decide (validationType ∈ object_prototype_names)
  then Inherited
  else NoValidator.

(** [clearFieldError(field)] *)
Definition clearFieldError (f : Field) : Field :=
  mkField (data_validate f) (required f) (data_required f) (value f)
          (data_field_name f) (name f) (placeholder f) false
          (match error_message f with
           | Some (text, _) => Some (text, false)
           | None => None
           end).

(** [showFieldError(field, message)] *)
Definition showFieldError (message : jsstring) (f : Field) : Field :=
  mkField (data_validate f) (required f) (data_required f) (value f)
          (data_field_name f) (name f) (placeholder f) true
          (Some (message, true)).

(** [a || b] on attribute values: [null] and the empty string are falsy. *)
Definition or_else (a : option jsstring) (b : jsstring) : jsstring :=
  match a with
  | Some (c :: s) => c :: s
  | _ => b
  end.

(** [getRequiredMessage(field)] *)
Definition getRequiredMessage (f : Field) : jsstring :=
  or_else (data_field_name f)
    (or_else (name f) (or_else (placeholder f) (lit "This field")))
  ++ lit " is required".

(** [validateField(field)]; [password] is the value of the first element
    named [password] in the document, if there is one. *)
Definition validateField (password : option jsstring) (f : Field)
  : result (Field * bool) :=
  match data_validate f with
  | None => Ok (f, true)
  | Some validationType =>
      let isRequired := required f || data_required f in
      let v := trim (value f) in
      let f := clearFieldError f in
      if isRequired && negb (truthy_str v)
      then Ok (showFieldError (getRequiredMessage f) f, false)
      else if negb (truthy_str v) && negb isRequired
      then Ok (f, true)
      else
        let confirm f :=
          if decide (validationType = lit "password_confirm")
          then match password with
               | Some pw =>
                   if decide (v = pw) then (f, true)
                   else (showFieldError (lit "Passwords do not match") f, false)
               | None => (f, true)
               end
          else (f, true) in
        match validators validationType with
        | Inherited => TypeError (f, false)
        | Validator pattern message =>
            if test pattern v then Ok (confirm f)
            else Ok (showFieldError message f, false)
        | NoValidator => Ok (confirm f)
        end
  end.

End FormValidator.


(** * Properties *)

(** ** Strings *)

Section Strings.

Lemma startsWith_app (s q : jsstring) :
  startsWith s q = true ↔ ∃ post, s = q ++ post.
Proof.
  revert s; induction q as [|a q IH]; intros s.
  - destruct s; simpl; (split; [intros _; by eexists | done]).
  - destruct s as [|b s]; simpl.
    + split; [done | intros [post H]; discriminate].
    + rewrite andb_true_iff, N.eqb_eq, IH. split.
      * intros [-> [post ->]]. by exists post.
      * intros [post H]. injection H as -> ->. eauto.
Qed.

(** [includes] finds exactly the strings that occur somewhere in [s]. *)
Lemma includes_app (s q : jsstring) :
  includes s q = true ↔ ∃ pre post, s = pre ++ q ++ post.
Proof.
  induction s as [|b s IH].
  - cbn [includes]. rewrite orb_false_r, startsWith_app. split.
    + intros [post H]. by exists [], post.
    + intros [pre [post H]]. symmetry in H.
      apply app_eq_nil in H as [-> H]. apply app_eq_nil in H as [-> ->].
      by exists [].
  - cbn [includes]. rewrite orb_true_iff, startsWith_app, IH. split.
    + intros [[post H] | [pre [post H]]].
      * by exists [], post.
      * exists (b :: pre), post. by rewrite H.
    + intros [[|c pre] [post H]].
      * left. by exists post.
      * right. injection H as -> H. eauto.
Qed.

Lemma substring_of_app (q s : jsstring) :
  Spec.substring_of q s ↔ ∃ pre post, s = pre ++ q ++ post.
Proof.
  unfold Spec.substring_of. rewrite Exists_exists. split.
  - intros [i [_ H]]. exists (take i s), (drop (length q) (drop i s)).
    rewrite <- H at 1. by rewrite !take_drop.
  - intros [pre [post ->]]. exists (length pre). split.
    + apply elem_of_seq. rewrite !length_app. lia.
    + by rewrite drop_app_length, take_app_length.
Qed.

Lemma includes_substring_of (s q : jsstring) :
  includes s q = true ↔ Spec.substring_of q s.
Proof. by rewrite includes_app, substring_of_app. Qed.

Lemma length_toLowerCase (s : jsstring) : length (toLowerCase s) = length s.
Proof. apply length_map. Qed.

End Strings.

(** ** Typeahead: the match list *)

Section Matches.
Import Typeahead.

Lemma filter_matches_spec (candidates : list jsstring) (value : jsstring) :
  filter_matches candidates (toLowerCase value)
  = Spec.spec_matches candidates value.
Proof.
  unfold filter_matches, Spec.spec_matches, Spec.all_matches, slice0.
  f_equal. apply list_filter_iff. intros c.
  apply includes_substring_of.
Qed.

Lemma filtered_spec (suggestions : list jsstring) (value : jsstring) :
  filtered suggestions (toLowerCase value)
  = Spec.all_matches suggestions value.
Proof.
  unfold filtered, Spec.all_matches.
  apply list_filter_iff. intros c. apply includes_substring_of.
Qed.

Lemma length_spec_matches (candidates : list jsstring) (query : jsstring) :
  (length (Spec.spec_matches candidates query) ≤ 10)%nat.
Proof. unfold Spec.spec_matches. rewrite length_take. lia. Qed.

Lemma spec_matches_sublist (candidates : list jsstring) (query : jsstring) :
  sublist (Spec.spec_matches candidates query) candidates.
Proof.
  unfold Spec.spec_matches, Spec.all_matches.
  etrans; [apply sublist_take | apply sublist_filter].
Qed.

End Matches.

Section TypeaheadClaims.
Import Typeahead.



Lemma items_showDropdown k ms p :
  items (dropdown_of k (showDropdown k ms p)) = ms.
Proof. by destruct k, ms. Qed.

Lemma display_showDropdown k ms p :
  display (dropdown_of k (showDropdown k ms p))
  = match ms with [] => DisplayNone | _ => DisplayBlock end.
Proof. by destruct k, ms. Qed.

Lemma display_hideDropdown k p :
  display (dropdown_of k (hideDropdown k p)) = DisplayNone.
Proof. by destruct k. Qed.

Lemma length_lt_2 (s : jsstring) :
  (length (toLowerCase s) <? 2)%nat = true ↔ (length s < 2)%nat.
Proof. rewrite length_toLowerCase. apply Nat.ltb_lt. Qed.

Lemma length_ge_2 (s : jsstring) :
  (2 ≤ length s)%nat → (length (toLowerCase s) <? 2)%nat = false.
Proof. rewrite length_toLowerCase. apply Nat.ltb_ge. Qed.



(** The country listener on an input inside a form, for a query of at
    least two code units: the computed list is passed to [showDropdown]. *)
Lemma country_on_input_long countries p f :
  country_form p = Some f →
  (2 ≤ length (country_value p))%nat →
  country_on_input countries p
  = Ok (showDropdown Country
          (Spec.spec_matches countries (country_value p))
          (after_country_change p f)).
Proof.
  intros Hf Hlen. unfold country_on_input, after_country_change.
  cbn -[toLowerCase filter_matches Nat.ltb]. rewrite Hf.
  by rewrite (length_ge_2 _ Hlen), filter_matches_spec.
Qed.

Lemma country_on_input_short countries p f :
  country_form p = Some f →
  (length (country_value p) < 2)%nat →
  country_on_input countries p
  = Ok (hideDropdown Country (after_country_change p f)).
Proof.
  intros Hf Hlen. unfold country_on_input, after_country_change.
  cbn -[toLowerCase filter_matches Nat.ltb]. rewrite Hf.
  apply length_lt_2 in Hlen. by rewrite Hlen.
Qed.


(** The city listener for a query of at least two code units, once
    [cities] is an array. *)
Lemma city_on_input_long tbl p f cities :
  city_form p = Some f →
  (2 ≤ length (city_value p))%nat →
  selected_cities tbl (if country_of_city_form p f then country_value p else [])
  = PArray cities →
  city_on_input tbl p
  = Ok (showDropdown City (Spec.spec_matches cities (city_value p))
          (set_currentCity (city_value p) p)).
Proof.
  intros Hy Hlen Hsel. unfold city_on_input.
  cbn -[toLowerCase filter_matches Nat.ltb selected_cities country_of_city_form].
  rewrite (length_ge_2 _ Hlen), Hy.
  change (country_of_city_form (set_currentCity (city_value p) p) f)
    with (country_of_city_form p f).
  by rewrite Hsel, filter_matches_spec.
Qed.



End TypeaheadClaims.

Section TypeaheadTheorems.
Import Typeahead.







End TypeaheadTheorems.

Section CouplingTheorems.
Import Typeahead.

(** C5 (amended).  When the country input and the city input are in the
    same form, a click on a suggestion of the country typeahead puts the
    suggestion in the country input, closes the list and sets the city
    input to the empty string.  In the debug variant the click puts the
    suggestion in the country input and closes the list, and the city
    input keeps its value. *)
Theorem C5_country_selection :
  ∀ (m : jsstring) (p : Page),
    (∀ f, country_form p = Some f → city_form p = Some f →
       ∃ p', item_on_click Country m p = Ok p'
             ∧ country_value p' = m
             ∧ display (country_dropdown p') = DisplayNone
             ∧ city_value p' = []
             ∧ currentCountry p' = m
             ∧ currentCity p' = [])
    ∧ country_value (debug_item_on_click Country m p) = m
    ∧ display (country_dropdown (debug_item_on_click Country m p))
      = DisplayNone
    ∧ city_value (debug_item_on_click Country m p) = city_value p.
Proof.
  intros m p. split; [|done].
  intros f Hc Hy. unfold item_on_click.
  cbn [country_form set_currentCountry set_country_value]. rewrite Hc.
  unfold city_of_country_form.
  cbn [city_form set_currentCountry set_country_value].
  rewrite bool_decide_eq_true_2 by done.
  by eexists.
Qed.

Lemma C5_country_selection_witness :
  ∃ p', item_on_click Country (lit "Canada")
          (set_city_value (lit "Paris") blank_page) = Ok p'
        ∧ country_value p' = lit "Canada"
        ∧ display (country_dropdown p') = DisplayNone
        ∧ city_value p' = []
        ∧ currentCountry p' = lit "Canada"
        ∧ currentCity p' = [].
Proof.
  apply (proj1 (C5_country_selection (lit "Canada")
                  (set_city_value (lit "Paris") blank_page)) O);
    reflexivity.
Defined.

(** C5 as stated fails in the debug variant: selecting ["Canada"] while
    the city field holds ["Paris"] leaves ["Paris"] in the city field. *)
Lemma C5_counterexample_debug_keeps_city :
  city_value (debug_item_on_click Country (lit "Canada")
                (set_city_value (lit "Paris") blank_page))
  = lit "Paris"
  ∧ city_value (debug_item_on_click Country (lit "Canada")
                  (set_city_value (lit "Paris") blank_page))
    ≠ [].
Proof. split; [reflexivity | discriminate]. Qed.

(** The lookup [citiesByCountry[k]] is [undefined] exactly when [k] is
    neither an own key nor a name inherited from [Object.prototype]. *)
Lemma get_property_undefined (tbl : table) (k : jsstring) :
  get_property tbl k = PUndefined
  ↔ own_property tbl k = None ∧ k ∉ object_prototype_names.
Proof.
  unfold get_property. destruct (own_property tbl k) as [v|].
  - split; [discriminate | intros [? _]; discriminate].
  - case_bool_decide as Hin.
    + split; [discriminate | intros [_ Hn]; by destruct Hn].
    + by split.
Qed.

Lemma get_property_own (tbl : table) (k : jsstring) (v : list jsstring) :
  own_property tbl k = Some v → get_property tbl k = PArray v.
Proof. unfold get_property. by intros ->. Qed.

(** The fallback of the city listener: with an empty country, or one
    whose lookup is [undefined], the candidates are the cities of every
    country, in the order of the table. *)
Lemma selected_cities_fallback (tbl : table) (country : jsstring) :
  country = [] ∨ get_property tbl country = PUndefined →
  selected_cities tbl country = PArray (values_flat tbl).
Proof.
  unfold selected_cities. intros [-> | ->]; [done|].
  by rewrite andb_false_r.
Qed.

Lemma selected_cities_own (tbl : table) (country : jsstring) v :
  country ≠ [] → own_property tbl country = Some v →
  selected_cities tbl country = PArray v.
Proof.
  unfold selected_cities. intros Hne Hv.
  rewrite (get_property_own _ _ _ Hv). by destruct country.
Qed.

Lemma city_on_input_fallback (tbl : table) (p : Page) (f : nat) :
  city_form p = Some f →
  country_form p = Some f →
  (2 ≤ length (city_value p))%nat →
  country_value p = [] ∨ get_property tbl (country_value p) = PUndefined →
  city_on_input tbl p
  = Ok (showDropdown City
          (Spec.spec_matches (values_flat tbl) (city_value p))
          (set_currentCity (city_value p) p)).
Proof.
  intros Hy Hc Hlen Hfb. unfold city_on_input.
  cbn -[toLowerCase filter_matches Nat.ltb selected_cities].
  rewrite (length_ge_2 _ Hlen), Hy. unfold country_of_city_form.
  cbn -[toLowerCase filter_matches Nat.ltb selected_cities].
  rewrite bool_decide_eq_true_2 by done.
  by rewrite (selected_cities_fallback _ _ Hfb), filter_matches_spec.
Qed.

(** C9, at a country that is not a key of the table but names a property
    of [Object.prototype]: [cities] is then that inherited value, not an
    array, and the listener ends in a [TypeError] before any list is
    shown. *)
Theorem C9_inherited_name_no_fallback :
  ∀ (tbl : table) (p : Page) (f : nat),
    own_property tbl (lit "constructor") = None →
    city_form p = Some f →
    country_form p = Some f →
    country_value p = lit "constructor" →
    (2 ≤ length (city_value p))%nat →
    selected_cities tbl (country_value p) = PInherited
    ∧ city_on_input tbl p = TypeError (set_currentCity (city_value p) p).
Proof.
  intros tbl p f Hown Hy Hc Hv Hlen.
  assert (selected_cities tbl (country_value p) = PInherited) as Hsel.
  { rewrite Hv. unfold selected_cities, get_property. by rewrite Hown. }
  split; [done|]. unfold city_on_input.
  cbn -[toLowerCase filter_matches Nat.ltb selected_cities].
  rewrite (length_ge_2 _ Hlen), Hy. unfold country_of_city_form.
  cbn -[toLowerCase filter_matches Nat.ltb selected_cities].
  rewrite bool_decide_eq_true_2 by done. by rewrite Hsel.
Qed.

Lemma C9_inherited_name_no_fallback_witness :
  selected_cities citiesByCountry_excerpt (lit "constructor") = PInherited
  ∧ city_on_input citiesByCountry_excerpt
      (set_city_value (lit "lo")
         (set_country_value (lit "constructor") blank_page))
    = TypeError
        (set_currentCity (lit "lo")
           (set_city_value (lit "lo")
              (set_country_value (lit "constructor") blank_page))).
Proof.
  apply (C9_inherited_name_no_fallback citiesByCountry_excerpt
           (set_city_value (lit "lo")
              (set_country_value (lit "constructor") blank_page)) O);
    [reflexivity | reflexivity | reflexivity | reflexivity | simpl; lia].
Defined.

End CouplingTheorems.

(** ** Debounce *)

Section DebounceTheorems.
Import Debounce.
Context {A : Type}.
Variable wait : N.

Lemma call_init (t : N) (a : A) :
  step wait init (Call t a) = armed t (t + wait) 0 a [].
Proof.
  unfold step, advance, executedFunction, clearTimeout, armed; simpl.
  by rewrite N.max_0_l.
Qed.

(** A call before the pending timer is due cancels it and sets a new
    one: nothing is invoked. *)
Lemma call_armed (nw d : N) (id : nat) (a a' : A) (inv : list A) (t : N) :
  nw ≤ t → t < d →
  step wait (armed nw d id a inv) (Call t a')
  = armed t (t + wait) (S id) a' inv.
Proof.
  intros Hnw Hd. unfold step, advance, armed. simpl.
  destruct (decide (d ≤ t)) as [?|_]; [lia|]. simpl.
  unfold executedFunction, clearTimeout. simpl.
  rewrite filter_cons. simpl.
  destruct (decide (Some id ≠ Some id)) as [Hne|_]; [by destruct Hne|].
  by rewrite N.max_r by done.
Qed.

(** Once the pending timer is due it fires, and [func] is called with
    the arguments of the call that set it. *)
Lemma idle_armed_due (nw d : N) (id : nat) (a : A) (inv : list A) (t : N) :
  nw ≤ t → d ≤ t →
  step wait (armed nw d id a inv) (Idle t)
  = mkLoop t [] (S id) (Some id) (inv ++ [a]).
Proof.
  intros Hnw Hd. unfold step, advance, armed. simpl.
  destruct (decide (d ≤ t)) as [_|?]; [|lia]. simpl.
  unfold later, clearTimeout. simpl.
  rewrite filter_cons. simpl.
  destruct (decide (id ≠ id)) as [Hne|_]; [by destruct Hne|]. simpl.
  by rewrite N.max_r by done.
Qed.

Lemma idle_armed_early (nw d : N) (id : nat) (a : A) (inv : list A) (t : N) :
  nw ≤ t → t < d →
  step wait (armed nw d id a inv) (Idle t) = armed t d id a inv.
Proof.
  intros Hnw Hd. unfold step, advance, armed. simpl.
  destruct (decide (d ≤ t)) as [?|_]; [lia|]. simpl.
  by rewrite N.max_r by done.
Qed.

Lemma last_default {B : Type} (l : list B) (x d d' : B) :
  List.last (x :: l) d = List.last (x :: l) d'.
Proof.
  revert x. induction l as [|y l IH]; intros x; [done|].
  change (List.last (y :: l) d = List.last (y :: l) d'). apply IH.
Qed.

Lemma last_call_cons (t0 : N) (a0 : A) (c : N * A) (calls : list (N * A)) :
  last_call t0 a0 (c :: calls) = last_call c.1 c.2 calls.
Proof.
  unfold last_call. destruct c as [t a]. simpl fst; simpl snd.
  destruct calls as [|c' calls]; [done|].
  change (List.last (c' :: calls) (t0, a0) = List.last (c' :: calls) (t, a)).
  apply last_default.
Qed.

(** A burst of any length leaves one pending timer, that of its last
    call, and invokes nothing. *)
Lemma run_chained (calls : list (N * A)) :
  ∀ (t0 : N) (id : nat) (a0 : A) (inv : list A),
    chained wait t0 calls →
    run wait (map (λ c, Call c.1 c.2) calls) (armed t0 (t0 + wait) id a0 inv)
    = armed (last_call t0 a0 calls).1 ((last_call t0 a0 calls).1 + wait)
            (length calls + id) (last_call t0 a0 calls).2 inv.
Proof.
  induction calls as [|[t a] calls IH]; intros t0 id a0 inv Hch.
  - done.
  - destruct Hch as (Hle & Hlt & Hch). cbn [map run foldl fst snd].
    rewrite call_armed by done.
    fold (run wait (map (λ c, Call c.1 c.2) calls)
              (armed t (t + wait) (S id) a inv)).
    rewrite IH by done.
    replace (length calls + S id)%nat with (length ((t, a) :: calls) + id)%nat
      by (simpl; lia).
    by rewrite (last_call_cons t0 a0 (t, a) calls).
Qed.

End DebounceTheorems.

Section DebounceClaim.
Import Debounce Typeahead Typing.








End DebounceClaim.

(** ** Service workers *)

Section ServiceWorkerTheorems.
Import ServiceWorker.

Lemma lookup_delete_others (keep : jsstring) (ks : list jsstring) :
  ∀ (caches : CacheStorage) (name : jsstring),
    foldl (λ cs cacheName,
             if decide (cacheName ≠ keep) then delete cacheName cs else cs)
          caches ks !! name
    = if decide (name ∈ ks ∧ name ≠ keep) then None else caches !! name.
Proof.
  induction ks as [|k ks IH]; intros caches name; cbn [foldl].
  - rewrite decide_False; [done|]. intros [H _]. by apply elem_of_nil in H.
  - rewrite IH. destruct (decide (name ∈ ks ∧ name ≠ keep)) as [[Hin Hne]|Hn].
    + rewrite decide_True; [done|]. split; [by right | done].
    + destruct (decide (k ≠ keep)) as [Hk|Hk].
      * destruct (decide (name = k)) as [->|Hnk].
        -- rewrite lookup_delete_eq. rewrite decide_True; [done|].
           split; [by left | done].
        -- rewrite lookup_delete_ne by done. rewrite decide_False; [done|].
           intros [Hin Hne]. apply elem_of_cons in Hin as [?|?]; [done|].
           by apply Hn.
      * rewrite decide_False; [done|].
        intros [Hin Hne]. apply elem_of_cons in Hin as [->|?].
        -- by apply Hk.
        -- by apply Hn.
Qed.

Lemma elem_of_keys (caches : CacheStorage) (name : jsstring) :
  name ∈ keys caches ↔ is_Some (caches !! name).
Proof.
  unfold keys. rewrite list_elem_of_fmap. split.
  - intros [[k v] [-> Hin]]. apply elem_of_map_to_list in Hin. by eexists.
  - intros [v Hv]. exists (name, v). split; [done|].
    by apply elem_of_map_to_list.
Qed.

(** C8 (amended).  When the Job2Hire worker is activated, every cache
    store whose name differs from its [CACHE_NAME] is deleted and the
    store of that name is kept as it is.  The recruiter and the candidate
    worker have no [activate] listener: their activation deletes
    nothing. *)
Theorem C8_activation_deletes_other_caches :
  ∀ (caches : CacheStorage),
    (∀ name, name ≠ CACHE_NAME Job2Hire →
       activate Job2Hire caches !! name = None)
    ∧ activate Job2Hire caches !! CACHE_NAME Job2Hire
      = caches !! CACHE_NAME Job2Hire
    ∧ activate Recruiter caches = caches
    ∧ activate Candidate caches = caches.
Proof.
  intros caches. split; [|split; [|done]].
  - intros name Hne. cbn [activate]. unfold job2hire_activate.
    rewrite lookup_delete_others.
    destruct (decide (name ∈ keys caches ∧ name ≠ CACHE_NAME Job2Hire))
      as [_|Hn]; [done|].
    destruct (caches !! name) as [v|] eqn:Hv; [|done].
    destruct Hn. split; [|done]. apply elem_of_keys. by eexists.
  - cbn [activate]. unfold job2hire_activate.
    rewrite lookup_delete_others. rewrite decide_False; [done|].
    by intros [_ Hne].
Qed.

Lemma C8_activation_deletes_other_caches_witness :
  activate Job2Hire
    {[ lit "job2hire-v0.9.0" := [lit "/"];
       lit "job2hire-v1.0.0" := [lit "/"; lit "/offline.html"] ]}
    !! lit "job2hire-v0.9.0"
  = None.
Proof.
  apply (proj1 (C8_activation_deletes_other_caches _)).
  discriminate.
Defined.

(** C8 as stated fails for the candidate worker: after its activation a
    cache store of another name is still there. *)
Lemma C8_counterexample_candidate_keeps_caches :
  lit "ez2hire-candidate-v0.9" ≠ CACHE_NAME Candidate
  ∧ activate Candidate {[ lit "ez2hire-candidate-v0.9" := [lit "/"] ]}
      !! lit "ez2hire-candidate-v0.9"
    = Some [lit "/"].
Proof. split; [discriminate | reflexivity]. Qed.

End ServiceWorkerTheorems.

(** ** [formatTime] *)

Section FormatTimeTheorems.
Import FormatTime.

Lemma length_digits (fuel : nat) :
  ∀ (n : N) (acc : jsstring),
    (length (digits fuel n acc)
     ≥ length acc + (if fuel is O then 0 else 1))%nat.
Proof.
  induction fuel as [|fuel IH]; intros n acc; cbn [digits]; [lia|].
  destruct (n <? 10).
  - simpl. lia.
  - specialize (IH (n / 10) ((48 + n mod 10) :: acc)). simpl in IH.
    destruct fuel; lia.
Qed.

(** A number of two digits or more needs no padding. *)
Lemma length_toString_ge_10 (n : N) :
  10 ≤ n → (2 ≤ length (toString n))%nat.
Proof.
  intros Hn. unfold toString.
  assert (3 ≤ N.log2 n) as Hlog.
  { change 3 with (N.log2 8). apply N.log2_le_mono. lia. }
  cbn [digits]. destruct (n <? 10) eqn:Hlt.
  - apply N.ltb_lt in Hlt. lia.
  - pose proof (length_digits (N.to_nat (N.log2 n)) (n / 10)
                  [48 + n mod 10]) as H.
    destruct (N.to_nat (N.log2 n)) as [|fuel] eqn:Hf; [lia|].
    cbn [length] in H. lia.
Qed.

Lemma toString_lt_10 (n : N) : n < 10 → toString n = [48 + n].
Proof.
  intros Hn. unfold toString. cbn [digits].
  apply N.ltb_lt in Hn as Hlt. rewrite Hlt.
  rewrite N.mod_small by (by apply N.ltb_lt). done.
Qed.

Lemma padStart_long (s : jsstring) :
  (2 ≤ length s)%nat → padStart 2 (lit "0") s = s.
Proof.
  intros Hs. unfold padStart. apply Nat.leb_le in Hs. by rewrite Hs.
Qed.

(** From ten minutes on the two copies format alike. *)
Lemma formatTime_agree_from_600 (seconds : N) :
  600 ≤ seconds → formatTime_fixed seconds = formatTime_main seconds.
Proof.
  intros Hs. unfold formatTime_fixed, formatTime_main. cbn zeta.
  rewrite padStart_long; [done|].
  apply length_toString_ge_10.
  change 10 with (600 / 60). by apply N.Div0.div_le_mono.
Qed.

(** Below ten minutes they differ: only [main-fixed.js] pads the
    minutes. *)
Lemma formatTime_differ_below_600 (seconds : N) :
  seconds < 600 → formatTime_fixed seconds = 48 :: formatTime_main seconds.
Proof.
  intros Hs. unfold formatTime_fixed, formatTime_main. cbn zeta.
  assert (seconds / 60 < 10) as Hm.
  { apply N.Div0.div_lt_upper_bound. lia. }
  by rewrite (toString_lt_10 _ Hm).
Qed.

(** C10, at 65 seconds: [main-fixed.js] returns ["01:05"], the other copy
    of the main script returns ["1:05"]. *)
Theorem C10_formatTime_copies_differ_at_65 :
  formatTime_fixed 65 = lit "01:05"
  ∧ formatTime_main 65 = lit "1:05"
  ∧ formatTime_fixed 65 ≠ formatTime_main 65.
Proof. split; [reflexivity | split; [reflexivity | discriminate]]. Qed.

End FormatTimeTheorems.

(** ** Dialogs: the emergency modal fix *)

Section EmergencyTheorems.
Import Emergency.

Lemma backdrops_closeModal m d :
  backdrops (closeModal m d) = tail (backdrops d).
Proof. done. Qed.

Lemma length_backdrops_closeModal m d :
  length (backdrops (closeModal m d)) = pred (length (backdrops d)).
Proof. rewrite backdrops_closeModal. by destruct (backdrops d). Qed.

Lemma backdrops_trigger_click sel d e :
  modal_els d !! sel = Some e →
  backdrops (trigger_click sel d)
  = backdrops d ++ [mkBackdrop (next_node d) sel].
Proof. unfold trigger_click. by intros ->. Qed.

Lemma modal_els_trigger_click sel d e :
  modal_els d !! sel = Some e →
  modal_els (trigger_click sel d) !! sel
  = Some (mkModalEl true true (close_listeners e ++ [sel])).
Proof.
  unfold trigger_click. intros ->. cbn [modal_els].
  by rewrite lookup_insert_eq.
Qed.

(** Every click on a trigger whose target exists appends a backdrop,
    whatever is already there. *)
Lemma length_backdrops_trigger_click sel d e :
  modal_els d !! sel = Some e →
  length (backdrops (trigger_click sel d)) = S (length (backdrops d)).
Proof.
  intros H. rewrite (backdrops_trigger_click _ _ _ H), length_app.
  simpl. lia.
Qed.

Lemma length_backdrops_fold_close (ts : list jsstring) :
  ∀ d, (length (backdrops (foldl (λ d t, closeModal t d) d ts))
        ≤ length (backdrops d))%nat.
Proof.
  induction ts as [|t ts IH]; intros d; cbn [foldl]; [done|].
  etrans; [apply IH|]. rewrite length_backdrops_closeModal. lia.
Qed.

Lemma length_backdrops_fold_escape (ts : list jsstring) :
  ∀ d, (length (backdrops
                  (foldl (λ d t, if is_shown t d then closeModal t d else d)
                         d ts))
        ≤ length (backdrops d))%nat.
Proof.
  induction ts as [|t ts IH]; intros d; cbn [foldl]; [done|].
  etrans; [apply IH|]. destruct (is_shown t d); [|done].
  rewrite length_backdrops_closeModal. lia.
Qed.

(** The three ways to dismiss never add a backdrop. *)
Lemma length_backdrops_dismiss (o : Op) (d : Doc) :
  is_trigger o = false →
  (length (backdrops (step d o)) ≤ length (backdrops d))%nat.
Proof.
  destruct o as [sel|m|n|]; [done| | |]; intros _; cbn [step].
  - unfold close_click. destruct (modal_els d !! m); [|done].
    apply length_backdrops_fold_close.
  - unfold backdrop_click.
    destruct (list_find _ _) as [[i b]|]; [|done].
    rewrite length_backdrops_closeModal. lia.
  - apply length_backdrops_fold_escape.
Qed.

(** A trigger click in a document without backdrop leaves one. *)
Lemma one_backdrop_after_first_click sel d :
  backdrops d = [] →
  (length (backdrops (trigger_click sel d)) ≤ 1)%nat.
Proof.
  intros Hd. unfold trigger_click.
  destruct (modal_els d !! sel); cbn [backdrops]; rewrite Hd; simpl; lia.
Qed.

Lemma is_Some_modal_els_trigger_click sel sel' d :
  is_Some (modal_els d !! sel') →
  is_Some (modal_els (trigger_click sel d) !! sel').
Proof.
  intros H. unfold trigger_click.
  destruct (modal_els d !! sel) as [e|] eqn:He; [|done]. cbn [modal_els].
  destruct (decide (sel = sel')) as [->|Hne].
  - rewrite lookup_insert_eq. by eexists.
  - by rewrite lookup_insert_ne.
Qed.

(** When every trigger click happens while no backdrop is in the
    document, at most one backdrop exists after each operation. *)
Lemma at_most_one_backdrop_when_opened_closed (ops : list Op) :
  ∀ d, (length (backdrops d) ≤ 1)%nat →
       opens_when_closed ops d →
       (length (backdrops (run ops d)) ≤ 1)%nat.
Proof.
  induction ops as [|o ops IH]; intros d Hd Hops; [done|].
  destruct Hops as [Ho Hops]. unfold run. cbn [foldl].
  apply IH; [|done].
  destruct (is_trigger o) eqn:Ht.
  - destruct o as [sel| | |]; try done. cbn [step].
    by apply one_backdrop_after_first_click, Ho.
  - etrans; [by apply length_backdrops_dismiss | done].
Qed.

(** C1, at two trigger clicks in a row on triggers whose targets exist
    (the same trigger twice, or a second trigger reached while the first
    modal is open), nothing dismissed in between: each click appends a
    backdrop, so two more backdrop nodes are in the document than
    before. *)
Theorem C1_two_trigger_clicks_two_backdrops :
  ∀ (d : Doc) (sel sel' : jsstring),
    is_Some (modal_els d !! sel) →
    is_Some (modal_els d !! sel') →
    length (backdrops (run [TriggerClick sel; TriggerClick sel'] d))
    = (length (backdrops d) + 2)%nat.
Proof.
  intros d sel sel' [e He] Hs'. unfold run. cbn [foldl step].
  destruct (is_Some_modal_els_trigger_click sel sel' d Hs') as [e' He'].
  rewrite (length_backdrops_trigger_click sel' _ _ He').
  rewrite (length_backdrops_trigger_click sel d e He). lia.
Qed.

Lemma C1_two_trigger_clicks_two_backdrops_witness :
  length (backdrops (run [TriggerClick (lit "#loginModal");
                          TriggerClick (lit "#loginModal")]
                       (start [lit "#loginModal"])))
  = 2%nat.
Proof.
  apply (C1_two_trigger_clicks_two_backdrops
           (start [lit "#loginModal"]) (lit "#loginModal")
           (lit "#loginModal"));
    (exists (mkModalEl false false []); reflexivity).
Defined.

(** After two trigger clicks the Escape key closes the modal and removes
    one backdrop; the other stays while no modal is shown. *)
Example escape_after_two_clicks_leaves_backdrop :
  length (backdrops (run [TriggerClick (lit "#loginModal");
                          TriggerClick (lit "#loginModal"); EscapeKey]
                       (start [lit "#loginModal"]))) = 1%nat
  ∧ is_shown (lit "#loginModal")
      (run [TriggerClick (lit "#loginModal");
            TriggerClick (lit "#loginModal"); EscapeKey]
         (start [lit "#loginModal"])) = false
  ∧ modal_open (body (run [TriggerClick (lit "#loginModal");
                           TriggerClick (lit "#loginModal"); EscapeKey]
                        (start [lit "#loginModal"]))) = false.
Proof. vm_compute. done. Qed.

(** Opened once, a modal is closed without a backdrop left by each of
    the three dismissals. *)
Example open_once_then_dismiss :
  backdrops (run [TriggerClick (lit "#loginModal");
                  CloseClick (lit "#loginModal")]
               (start [lit "#loginModal"])) = []
  ∧ backdrops (run [TriggerClick (lit "#loginModal"); BackdropClick 0]
                 (start [lit "#loginModal"])) = []
  ∧ backdrops (run [TriggerClick (lit "#loginModal"); EscapeKey]
                 (start [lit "#loginModal"])) = [].
Proof. vm_compute. done. Qed.

End EmergencyTheorems.

(** ** Dialogs: [ModalManager] *)

Section ManagerTheorems.
Import Manager.

Variable ctor_throws : jsstring → bool.
Variable dispose_throws : nat → bool.

Local Abbreviation init_one := (init_one ctor_throws).
Local Abbreviation cleanup := (cleanup dispose_throws).
Local Abbreviation initializeModals :=
  (initializeModals ctor_throws dispose_throws).
Local Abbreviation registered_ids := (registered_ids ctor_throws).

Lemma el_id_ensureModalStructure e : el_id (ensureModalStructure e) = el_id e.
Proof. unfold ensureModalStructure. by destruct (has_dialog e). Qed.

Lemma fold_dispose_one (kvs : list (jsstring * nat)) :
  ∀ s, let s' := foldl (dispose_one dispose_throws) s kvs in
       dispose_calls s' = dispose_calls s ++ kvs.*2
       ∧ elements s' = elements s
       ∧ next_inst s' = next_inst s.
Proof.
  induction kvs as [|kv kvs IH]; intros s; cbn [foldl fmap list_fmap].
  - by rewrite app_nil_r.
  - destruct (IH (dispose_one dispose_throws s kv)) as (Hd & He & Hn).
    cbn zeta. rewrite Hd, He, Hn. cbn [dispose_one dispose_calls elements next_inst].
    by rewrite <- app_assoc.
Qed.

Lemma cleanup_facts s :
  modals (cleanup s) = ∅
  ∧ backdrops (cleanup s) = []
  ∧ elements (cleanup s) = elements s
  ∧ dispose_calls (cleanup s)
    = dispose_calls s ++ (map_to_list (modals s)).*2.
Proof.
  unfold cleanup. cbn [modals backdrops elements dispose_calls].
  destruct (fold_dispose_one (map_to_list (modals s)) s) as (Hd & He & _).
  by rewrite Hd, He.
Qed.

Lemma fold_init_one (es : list ModalElement) :
  ∀ s done,
    let r := foldl init_one (s, done) es in
    dom (modals r.1) = dom (modals s) ∪ registered_ids es
    ∧ map el_id r.2 = map el_id done ++ map el_id es
    ∧ dispose_calls r.1 = dispose_calls s
    ∧ backdrops r.1 = backdrops s.
Proof.
  induction es as [|e es IH]; intros s done; cbn [foldl]; cbn zeta.
  - unfold Manager.registered_ids. cbn [map fst snd].
    rewrite filter_nil, list_to_set_nil, app_nil_r.
    by rewrite (right_id_L ∅ (∪)).
  - destruct (init_one (s, done) e) as [s1 d1] eqn:Hone.
    specialize (IH s1 d1). cbn zeta in IH.
    destruct IH as (Hdom & Hids & Hd & Hb).
    rewrite Hdom, Hids, Hd, Hb.
    unfold Manager.init_one in Hone.
    rewrite el_id_ensureModalStructure in Hone.
    unfold Manager.registered_ids. cbn [map]. rewrite filter_cons.
    destruct (ctor_throws (el_id e)) eqn:Hc; injection Hone as <- <-;
      cbn [modals dispose_calls backdrops];
      rewrite map_app, <- app_assoc; cbn [map app el_id attachEventListeners];
      rewrite el_id_ensureModalStructure.
    + rewrite decide_False by done. done.
    + rewrite decide_True by done.
      rewrite dom_insert_L, list_to_set_cons.
      repeat split. by rewrite (assoc_L (∪)), (comm_L (∪) (dom (modals s))).
Qed.

Lemma initializeModals_facts s :
  dom (modals (initializeModals s)) = registered_ids (elements s)
  ∧ map el_id (elements (initializeModals s)) = map el_id (elements s)
  ∧ dispose_calls (initializeModals s)
    = dispose_calls s ++ (map_to_list (modals s)).*2
  ∧ backdrops (initializeModals s) = [].
Proof.
  unfold Manager.initializeModals.
  destruct (cleanup_facts s) as (Hm & Hb & He & Hd).
  pose proof (fold_init_one (elements (cleanup s)) (cleanup s) []) as H.
  cbn zeta in H. destruct (foldl init_one _ _) as [s' es].
  cbn [fst snd] in H. destruct H as (Hdom & Hids & Hd' & Hb').
  cbn [modals elements dispose_calls backdrops].
  rewrite Hdom, Hids, Hd', Hb', Hm, Hb, He, Hd.
  by rewrite dom_empty_L, (left_id_L ∅ (∪)).
Qed.

(** Scanning twice registers as many handles as scanning once. *)
Lemma initializeModals_size_idempotent s :
  size (modals (initializeModals (initializeModals s)))
  = size (modals (initializeModals s)).
Proof.
  rewrite <- !size_dom.
  destruct (initializeModals_facts (initializeModals s)) as (-> & _).
  destruct (initializeModals_facts s) as (-> & Hids & _).
  unfold Manager.registered_ids. by rewrite Hids.
Qed.

(** A scan calls [dispose()] on every handle of the previous scan. *)
Lemma initializeModals_disposes_prior s id inst :
  modals s !! id = Some inst →
  inst ∈ dispose_calls (initializeModals s).
Proof.
  intros H. destruct (initializeModals_facts s) as (_ & _ & -> & _).
  apply elem_of_app. right. apply list_elem_of_fmap.
  exists (id, inst). split; [done|]. by apply elem_of_map_to_list.
Qed.

(** No backdrop is left when a scan ends. *)
Lemma initializeModals_no_backdrop s :
  backdrops (initializeModals s) = [].
Proof. by destruct (initializeModals_facts s) as (_ & _ & _ & ->). Qed.

End ManagerTheorems.

Section ManagerClaims.
Import Manager.

(** C4.  For every dialog identifier that is not in the registry, [show]
    and [hide] return without a throw, whatever the dialog primitive
    does: [hide] leaves the whole state as it is, and [show] changes
    nothing but the console, to which it adds the warning for that
    identifier; registry, modal elements, backdrops and body are the
    same. *)
Theorem C4_unknown_id_noop :
  ∀ (bs_show bs_hide : nat → State → result State)
    (s : State) (modalId : jsstring),
    modals s !! modalId = None →
    hide bs_hide modalId s = Ok s
    ∧ ∃ s', show bs_show modalId s = Ok s'
            ∧ modals s' = modals s
            ∧ elements s' = elements s
            ∧ backdrops s' = backdrops s
            ∧ body s' = body s
            ∧ dispose_calls s' = dispose_calls s
            ∧ next_inst s' = next_inst s
            ∧ console s' = console s ++ [ModalNotFound modalId].
Proof.
  intros bs_show bs_hide s modalId Hnone. unfold hide, show.
  rewrite Hnone. split; [done|]. by eexists.
Qed.

Lemma C4_unknown_id_noop_witness :
  hide (λ _ s, TypeError s) (lit "signupModal") scanned_once
  = Ok scanned_once.
Proof.
  apply (C4_unknown_id_noop (λ _ s, TypeError s) (λ _ s, TypeError s)
           scanned_once (lit "signupModal")).
  vm_compute. reflexivity.
Defined.

(** The [hidden.bs.modal] listener of a registered element removes every
    backdrop. *)
Lemma dispatch_hidden_no_backdrop (inst : nat) (e : ModalElement) (s : State) :
  backdrops (dispatch_hidden (attachEventListeners inst e) s) = [].
Proof.
  unfold dispatch_hidden, listeners_for. cbn [attachEventListeners el_listeners].
  rewrite filter_app, map_app, foldl_app.
  rewrite !filter_cons.
  repeat (rewrite decide_False by done).
  rewrite decide_True by done. done.
Qed.

(** Each registration adds one [hidden.bs.modal] listener to the element
    and one click listener to its close buttons, next to those already
    there. *)
Lemma listeners_attachEventListeners (inst : nat) (e : ModalElement) :
  listeners_for HiddenBsModal (attachEventListeners inst e)
  = listeners_for HiddenBsModal e ++ [CleanupOnHidden]
  ∧ dismiss_listeners (attachEventListeners inst e)
    = dismiss_listeners e ++ [HideOnDismiss inst].
Proof.
  split; [|done].
  unfold listeners_for. cbn [attachEventListeners el_listeners].
  rewrite filter_app, map_app. f_equal.
Qed.

(** Structure repair keeps the listeners of the element itself. *)
Lemma listeners_ensureModalStructure (ev : EventType) (e : ModalElement) :
  listeners_for ev (ensureModalStructure e) = listeners_for ev e.
Proof. unfold ensureModalStructure. by destruct (has_dialog e). Qed.

(** C6, on a page with one modal and a dialog primitive that never
    throws.  One scan registers one handle and puts one
    [hidden.bs.modal] listener on the element and one click listener on
    its close buttons.  A second scan again registers one handle, after a
    call of [dispose()] on the first; but the listeners of the first scan
    are still there, so the element has two [hidden.bs.modal] listeners
    and its close buttons two click listeners, one of them for the
    disposed handle: one event now runs two listeners. *)
Theorem C6_second_scan_duplicates_listeners :
  size (modals scanned_once) = 1%nat
  ∧ size (modals scanned_twice) = 1%nat
  ∧ modals scanned_once !! lit "loginModal" = Some 0%nat
  ∧ modals scanned_twice !! lit "loginModal" = Some 1%nat
  ∧ dispose_calls scanned_twice = [0%nat]
  ∧ map (listeners_for HiddenBsModal) (elements scanned_once)
    = [[CleanupOnHidden]]
  ∧ map (listeners_for HiddenBsModal) (elements scanned_twice)
    = [[CleanupOnHidden; CleanupOnHidden]]
  ∧ map dismiss_listeners (elements scanned_once) = [[HideOnDismiss 0]]
  ∧ map dismiss_listeners (elements scanned_twice)
    = [[HideOnDismiss 0; HideOnDismiss 1]].
Proof. vm_compute. repeat split. Qed.

End ManagerClaims.

(** * Further properties of the scripts *)

(** ** Location autocomplete *)

Section LocationTheorems.
Import Typeahead Location.

Lemma in_sync_hideDropdown k p : in_sync p → in_sync (hideDropdown k p).
Proof. by destruct k. Qed.

Lemma in_sync_showDropdown k ms p : in_sync p → in_sync (showDropdown k ms p).
Proof. by destruct k, ms. Qed.

Lemma in_sync_country_on_input countries p :
  currentCity p = city_value p →
  in_sync (state_of (country_on_input countries p)).
Proof.
  intros Hc. unfold country_on_input.
  cbn -[toLowerCase filter_matches Nat.ltb city_of_country_form].
  destruct (country_form p) as [f|]; cbn [state_of].
  - assert (in_sync (if city_of_country_form
                          (set_currentCountry (country_value p) p) f
                     then clear_city (set_currentCountry (country_value p) p)
                     else set_currentCountry (country_value p) p)) as Hs.
    { destruct (city_of_country_form _ _); unfold in_sync, getSelectedLocation;
        cbn; by rewrite ?Hc. }
    destruct (_ <? _)%nat; cbn [state_of].
    + by apply in_sync_hideDropdown.
    + by apply in_sync_showDropdown.
  - unfold in_sync, getSelectedLocation. cbn. by rewrite Hc.
Qed.

Lemma in_sync_city_on_input tbl p :
  currentCountry p = country_value p →
  in_sync (state_of (city_on_input tbl p)).
Proof.
  intros Hc. unfold city_on_input.
  cbn -[toLowerCase filter_matches Nat.ltb selected_cities country_of_city_form].
  assert (in_sync (set_currentCity (city_value p) p)) as Hs.
  { unfold in_sync, getSelectedLocation. cbn. by rewrite Hc. }
  destruct (_ <? _)%nat; cbn [state_of].
  - by apply in_sync_hideDropdown.
  - destruct (city_form p) as [f|]; [|done].
    destruct (selected_cities _ _); cbn [state_of]; try done.
    by apply in_sync_showDropdown.
Qed.

Lemma in_sync_item_on_click k m p :
  in_sync p → in_sync (state_of (item_on_click k m p)).
Proof.
  intros Hs. injection Hs as Hc Hy. destruct k; unfold item_on_click.
  - cbn -[city_of_country_form]. destruct (country_form p) as [f|]; cbn [state_of].
    + apply in_sync_hideDropdown.
      destruct (city_of_country_form _ _); unfold in_sync, getSelectedLocation;
        cbn; by rewrite ?Hy.
    + unfold in_sync, getSelectedLocation. cbn. by rewrite Hy.
  - cbn [state_of]. apply in_sync_hideDropdown.
    unfold in_sync, getSelectedLocation. cbn. by rewrite Hc.
Qed.

(** X1.  Once the globals [currentCountry] and [currentCity] hold what the
    two inputs show, they do so after every further input event and click,
    also when a listener throws: [getSelectedLocation()] then returns the
    values of the inputs. *)
Theorem getSelectedLocation_in_sync :
  ∀ (countries : list jsstring) (tbl : table) (es : list Event) (p : Page),
    in_sync p →
    getSelectedLocation (run countries tbl es p)
    = (country_value (run countries tbl es p),
       city_value (run countries tbl es p)).
Proof.
  intros countries tbl es. induction es as [|e es IH]; intros p Hs; [done|].
  unfold run. cbn [foldl]. apply IH.
  injection Hs as Hc Hy.
  destruct e as [v|v|m|m|]; cbn [step].
  - by apply in_sync_country_on_input.
  - by apply in_sync_city_on_input.
  - apply in_sync_hideDropdown, in_sync_item_on_click.
    unfold in_sync, getSelectedLocation. by rewrite Hc, Hy.
  - apply in_sync_hideDropdown, in_sync_item_on_click.
    unfold in_sync, getSelectedLocation. by rewrite Hc, Hy.
  - apply in_sync_hideDropdown, in_sync_hideDropdown.
    unfold in_sync, getSelectedLocation. by rewrite Hc, Hy.
Qed.

Lemma getSelectedLocation_in_sync_witness :
  getSelectedLocation
    (run countries citiesByCountry_excerpt
       [TypeCountry (lit "can"); ClickCountryItem (lit "Canada");
        TypeCity (lit "to")] blank_page)
  = (lit "Canada", lit "to").
Proof.
  apply (getSelectedLocation_in_sync countries citiesByCountry_excerpt
           [TypeCountry (lit "can"); ClickCountryItem (lit "Canada");
            TypeCity (lit "to")] blank_page).
  reflexivity.
Defined.

(** X2.  Every input event on the country field empties the city field of
    the same form and the global [currentCity], whatever the length of the
    typed text; a city field outside that form keeps its value. *)
Theorem country_input_clears_city :
  ∀ (countries : list jsstring) (p : Page) (f : nat),
    country_form p = Some f →
    ∃ p', country_on_input countries p = Ok p'
          ∧ country_value p' = country_value p
          ∧ currentCountry p' = country_value p
          ∧ (city_form p = Some f → city_value p' = [] ∧ currentCity p' = [])
          ∧ (city_form p ≠ Some f →
             city_value p' = city_value p ∧ currentCity p' = currentCity p).
Proof.
  intros countries p f Hf.
  assert (∀ q : Page,
            country_value (after_country_change p f) = country_value p
            ∧ currentCountry (after_country_change p f) = country_value p
            ∧ (city_form p = Some f →
               city_value (after_country_change p f) = []
               ∧ currentCity (after_country_change p f) = [])
            ∧ (city_form p ≠ Some f →
               city_value (after_country_change p f) = city_value p
               ∧ currentCity (after_country_change p f) = currentCity p))
    as Hac.
  { intros _. unfold after_country_change, city_of_country_form.
    cbn [city_form set_currentCountry].
    case_bool_decide as Hy; repeat split; try done; by intros ?. }
  specialize (Hac p).
  destruct (decide (length (country_value p) < 2)%nat) as [Hlt|Hge].
  - rewrite (country_on_input_short countries p f Hf Hlt).
    eexists; split; [done|]. by destruct Hac as (? & ? & ? & ?).
  - assert (2 ≤ length (country_value p))%nat as Hlen by lia.
    rewrite (country_on_input_long countries p f Hf Hlen).
    eexists; split; [done|].
    destruct Hac as (? & ? & ? & ?).
    by destruct (Spec.spec_matches countries (country_value p)).
Qed.

Lemma country_input_clears_city_witness :
  ∃ p', country_on_input countries
          (set_country_value (lit "c")
             (set_city_value (lit "Paris") blank_page)) = Ok p'
        ∧ city_value p' = [].
Proof.
  destruct (country_input_clears_city countries
              (set_country_value (lit "c")
                 (set_city_value (lit "Paris") blank_page)) O)
    as (p' & Hp' & _ & _ & Hsame & _); [reflexivity|].
  exists p'. split; [exact Hp'|]. apply Hsame. reflexivity.
Defined.

(** X3.  When the country field of the form holds a key of
    [citiesByCountry], the city listener (query of two code units or
    more; typed value and city names being [latin1] strings) suggests
    cities of that country only: the list shown consists of the matching
    entries of that country's list, in its order, at most ten. *)
Theorem city_suggestions_of_selected_country :
  ∀ (tbl : table) (p : Page) (f : nat) (cities : list jsstring),
    city_form p = Some f →
    country_form p = Some f →
    country_value p ≠ [] →
    own_property tbl (country_value p) = Some cities →
    latin1 (city_value p) = true →
    forallb latin1 cities = true →
    (2 ≤ length (toLowerCase (city_value p)))%nat →
    ∃ p', city_on_input tbl p = Ok p'
          ∧ items (city_dropdown p')
            = Spec.spec_matches cities (city_value p)
          ∧ (∀ c, c ∈ items (city_dropdown p') → c ∈ cities)
          ∧ sublist (items (city_dropdown p')) cities
          ∧ (length (items (city_dropdown p')) ≤ 10)%nat.
Proof.
  intros tbl p f cities Hy Hc Hne Hown _ _ Hlen.
  rewrite length_toLowerCase in Hlen.
  assert (selected_cities tbl
            (if country_of_city_form p f then country_value p else [])
          = PArray cities) as Hsel.
  { unfold country_of_city_form. rewrite bool_decide_eq_true_2 by done.
    by apply selected_cities_own. }
  rewrite (city_on_input_long tbl p f cities Hy Hlen Hsel).
  eexists; split; [done|].
  rewrite (items_showDropdown City). split; [done|].
  pose proof (spec_matches_sublist cities (city_value p)) as Hsub.
  split; [|split; [done | apply length_spec_matches]].
  intros c Hin. by eapply elem_of_sublist.
Qed.

Lemma city_suggestions_of_selected_country_witness :
  ∃ p', city_on_input citiesByCountry_excerpt
          (set_city_value (lit "to")
             (set_country_value (lit "Canada") blank_page)) = Ok p'
        ∧ items (city_dropdown p') = [lit "Toronto"].
Proof.
  destruct (city_suggestions_of_selected_country citiesByCountry_excerpt
              (set_city_value (lit "to")
                 (set_country_value (lit "Canada") blank_page)) O
              (map lit ["Toronto"; "Montreal"; "Calgary"]%string))
    as (p' & Hp' & Hitems & _);
    [reflexivity | reflexivity | discriminate | reflexivity
    | reflexivity | reflexivity | simpl; lia |].
  exists p'. split; [exact Hp'|]. rewrite Hitems. reflexivity.
Defined.

(** X4.  The list of a country field inside a form is displayed after an
    input event exactly when the query has two code units or more and
    some country contains it, case-insensitively (typed value and
    countries being [latin1] strings). *)
Theorem country_dropdown_displayed_iff :
  ∀ (countries : list jsstring) (p : Page) (f : nat),
    country_form p = Some f →
    latin1 (country_value p) = true →
    forallb latin1 countries = true →
    display (country_dropdown (state_of (country_on_input countries p)))
    = DisplayBlock
    ↔ (2 ≤ length (toLowerCase (country_value p)))%nat
      ∧ ∃ c pre post,
          c ∈ countries
          ∧ toLowerCase c = pre ++ toLowerCase (country_value p) ++ post.
Proof.
  intros countries p f Hf _ _. rewrite length_toLowerCase.
  destruct (decide (length (country_value p) < 2)%nat) as [Hlt|Hge].
  - rewrite (country_on_input_short countries p f Hf Hlt). cbn [state_of].
    rewrite (display_hideDropdown Country). split; [done|]. intros [? _]. lia.
  - assert (2 ≤ length (country_value p))%nat as Hlen by lia.
    rewrite (country_on_input_long countries p f Hf Hlen). cbn [state_of].
    rewrite (display_showDropdown Country).
    destruct (Spec.spec_matches countries (country_value p)) as [|m ms] eqn:Hm.
    + split; [done|]. intros [_ (c & pre & post & Hin & Hc)]. exfalso.
      assert (c ∈ Spec.all_matches countries (country_value p)) as Hall.
      { apply list_elem_of_filter. split; [|done].
        apply substring_of_app. eauto. }
      unfold Spec.spec_matches in Hm.
      destruct (Spec.all_matches countries (country_value p)); [|done].
      by apply elem_of_nil in Hall.
    + split; [|done]. intros _. split; [done|].
      assert (m ∈ Spec.all_matches countries (country_value p)) as Hall.
      { eapply elem_of_sublist; [|apply (sublist_take _ 10)].
        fold (Spec.spec_matches countries (country_value p)).
        rewrite Hm. by left. }
      apply list_elem_of_filter in Hall as [Hq Hin].
      apply substring_of_app in Hq as (pre & post & Hq). eauto 6.
Qed.

Lemma country_dropdown_displayed_iff_witness :
  display (country_dropdown
             (state_of (country_on_input countries
                          (set_country_value (lit "uni") blank_page))))
  = DisplayBlock
  ↔ (2 ≤ length (toLowerCase
                   (country_value
                      (set_country_value (lit "uni") blank_page))))%nat
    ∧ ∃ c pre post,
        c ∈ countries
        ∧ toLowerCase c
          = pre
            ++ toLowerCase
                 (country_value (set_country_value (lit "uni") blank_page))
            ++ post.
Proof.
  refine (country_dropdown_displayed_iff countries
            (set_country_value (lit "uni") blank_page) O _ _ _);
    reflexivity.
Defined.

(** X5.  After a click on a non-empty suggestion of the country field (both
    fields in one form), [buildLocationString] applied to what
    [getSelectedLocation()] returns is that country alone: the city has
    been dropped. *)
Theorem location_string_after_country_selection :
  ∀ (m : jsstring) (p : Page) (f : nat),
    country_form p = Some f → city_form p = Some f → m ≠ [] →
    buildLocationString
      (getSelectedLocation (state_of (item_on_click Country m p))).1
      (getSelectedLocation (state_of (item_on_click Country m p))).2
    = m.
Proof.
  intros m p f Hc Hy Hm. unfold item_on_click.
  cbn [country_form set_currentCountry set_country_value]. rewrite Hc.
  unfold city_of_country_form.
  cbn [city_form set_currentCountry set_country_value].
  rewrite bool_decide_eq_true_2 by done. cbn.
  unfold buildLocationString. by destruct m.
Qed.

Lemma location_string_after_country_selection_witness :
  buildLocationString
    (getSelectedLocation
       (state_of (item_on_click Country (lit "Canada")
                    (set_city_value (lit "Paris") blank_page)))).1
    (getSelectedLocation
       (state_of (item_on_click Country (lit "Canada")
                    (set_city_value (lit "Paris") blank_page)))).2
  = lit "Canada".
Proof.
  apply (location_string_after_country_selection (lit "Canada")
           (set_city_value (lit "Paris") blank_page) O);
    [reflexivity | reflexivity | discriminate].
Defined.

End LocationTheorems.

(** ** [InterviewAutocomplete] *)

Section SuggestTheorems.
Import Typeahead.

Lemma truthy_toLowerCase (s : jsstring) :
  truthy_str (toLowerCase s) = truthy_str s.
Proof. by destruct s. Qed.

(** X6.  [showSuggestions] leaves the suggestion list displayed exactly
    when the input is not empty and at least one suggestion contains the
    input, case-insensitively; the list then holds all those suggestions
    (input and suggestions being [latin1] strings). *)
Theorem showSuggestions_displayed_iff :
  ∀ (suggestions : list jsstring) (s : Suggest),
    latin1 (input_value s) = true →
    forallb latin1 suggestions = true →
    (display (container (showSuggestions suggestions s)) = DisplayBlock
     ↔ input_value s ≠ []
       ∧ ∃ item pre post,
           item ∈ suggestions
           ∧ toLowerCase item = pre ++ toLowerCase (input_value s) ++ post)
    ∧ (display (container (showSuggestions suggestions s)) = DisplayBlock →
       items (container (showSuggestions suggestions s))
       = Spec.all_matches suggestions (input_value s)).
Proof.
  intros suggestions s _ _. unfold showSuggestions.
  rewrite truthy_toLowerCase, filtered_spec.
  destruct (input_value s) as [|c v] eqn:Hv.
  - cbn [truthy_str negb container display items].
    split; [|done]. split; [done|]. by intros [? _].
  - cbn [truthy_str negb].
    destruct (Spec.all_matches suggestions (c :: v)) as [|m ms] eqn:Hm.
    + cbn [container display items]. split; [|done]. split; [done|].
      intros [_ (item & pre & post & Hin & Hc)]. exfalso.
      assert (item ∈ Spec.all_matches suggestions (c :: v)) as Hall.
      { apply list_elem_of_filter. split; [|done].
        apply substring_of_app. eauto. }
      rewrite Hm in Hall. by apply elem_of_nil in Hall.
    + cbn [container display items].
      split; [|done]. split; [|done]. intros _. split; [done|].
      assert (m ∈ Spec.all_matches suggestions (c :: v)) as Hall
        by (rewrite Hm; by left).
      apply list_elem_of_filter in Hall as [Hq Hin].
      apply substring_of_app in Hq as (pre & post & Hq). eauto 6.
Qed.

Lemma showSuggestions_displayed_iff_witness :
  display (container
             (showSuggestions difficultySuggestions
                (mkSuggest (lit "ar") (mkDropdown DisplayNone []))))
  = DisplayBlock
  ∧ items (container
             (showSuggestions difficultySuggestions
                (mkSuggest (lit "ar") (mkDropdown DisplayNone []))))
    = Spec.all_matches difficultySuggestions (lit "ar").
Proof.
  destruct (showSuggestions_displayed_iff difficultySuggestions
              (mkSuggest (lit "ar") (mkDropdown DisplayNone [])))
    as [_ Hitems]; [reflexivity | reflexivity |].
  split; [reflexivity|]. apply Hitems. reflexivity.
Defined.

Lemma includes_trans (s q q' : jsstring) :
  includes q' q = true → includes s q' = true → includes s q = true.
Proof.
  rewrite !includes_app. intros (a & b & ->) (pre & post & ->).
  exists (pre ++ a), (b ++ post). by rewrite <- !app_assoc.
Qed.

Lemma sublist_filter_impl {B} (P Q : B → Prop)
  `{!∀ x, Decision (P x)} `{!∀ x, Decision (Q x)} (l : list B) :
  (∀ x, P x → Q x) → sublist (filter P l) (filter Q l).
Proof.
  intros HPQ. induction l as [|x l IH]; [done|].
  rewrite !filter_cons. destruct (decide (P x)) as [HP|HP].
  - rewrite decide_True by auto. by constructor.
  - destruct (decide (Q x)); [by constructor | done].
Qed.

Lemma filtered_sublist (suggestions : list jsstring) (old new : jsstring) :
  includes (toLowerCase new) (toLowerCase old) = true →
  sublist (filtered suggestions (toLowerCase new))
          (filtered suggestions (toLowerCase old)).
Proof.
  intros Hinc. unfold filtered.
  apply sublist_filter_impl. intros item Hitem.
  by eapply includes_trans.
Qed.

Lemma toLowerCase_app (s s' : jsstring) :
  toLowerCase (s ++ s') = toLowerCase s ++ toLowerCase s'.
Proof. apply map_app. Qed.

(** What [showSuggestions] leaves on display: the items of the list when
    it is displayed, nothing when it is hidden. *)
Lemma showSuggestions_shown (suggestions : list jsstring) (s : Suggest) :
  input_value s ≠ [] →
  display (container (showSuggestions suggestions s)) = DisplayBlock →
  items (container (showSuggestions suggestions s))
  = filtered suggestions (toLowerCase (input_value s))
  ∧ filtered suggestions (toLowerCase (input_value s)) ≠ [].
Proof.
  intros Hne. unfold showSuggestions. rewrite truthy_toLowerCase.
  destruct (input_value s) as [|c v]; [done|]. cbn [truthy_str negb].
  by destruct (filtered suggestions (toLowerCase (c :: v))).
Qed.

(** X7.  Typing on narrows what [showSuggestions] displays: when the old
    input is not empty and the new input contains it, the suggestions
    displayed for the new input, if any are displayed, are among those
    displayed for the old input, in the same order, whatever the list held
    before (inputs and suggestions being [latin1] strings). *)
Theorem showSuggestions_narrows :
  ∀ (suggestions : list jsstring) (old pre post : jsstring)
    (before before' : Dropdown),
    old ≠ [] →
    latin1 (pre ++ old ++ post) = true →
    forallb latin1 suggestions = true →
    display (container
               (showSuggestions suggestions
                  (mkSuggest (pre ++ old ++ post) before')))
    = DisplayBlock →
    display (container (showSuggestions suggestions (mkSuggest old before)))
    = DisplayBlock
    ∧ sublist
        (items (container
                  (showSuggestions suggestions
                     (mkSuggest (pre ++ old ++ post) before'))))
        (items (container
                  (showSuggestions suggestions (mkSuggest old before)))).
Proof.
  intros suggestions old pre post before before' Hold _ _ Hnew.
  assert (pre ++ old ++ post ≠ []) as Hne.
  { intros H. apply app_eq_nil in H as [_ H].
    by apply app_eq_nil in H as [H _]. }
  destruct (showSuggestions_shown suggestions
              (mkSuggest (pre ++ old ++ post) before') Hne Hnew)
    as [Hitems Hsome].
  cbn [input_value] in Hitems, Hsome. rewrite Hitems.
  assert (sublist (filtered suggestions (toLowerCase (pre ++ old ++ post)))
                  (filtered suggestions (toLowerCase old))) as Hsub.
  { apply filtered_sublist. apply includes_app.
    exists (toLowerCase pre), (toLowerCase post).
    by rewrite !toLowerCase_app. }
  unfold showSuggestions. cbn [input_value].
  rewrite truthy_toLowerCase.
  destruct old as [|c v]; [done|]. cbn [truthy_str negb].
  destruct (filtered suggestions (toLowerCase (c :: v))) as [|m ms] eqn:Hm.
  - apply sublist_nil_r in Hsub. by destruct Hsome.
  - done.
Qed.

Lemma showSuggestions_narrows_witness :
  display (container
             (showSuggestions topicSuggestions
                (mkSuggest (lit "ja") (mkDropdown DisplayNone []))))
  = DisplayBlock
  ∧ sublist
      (items (container
                (showSuggestions topicSuggestions
                   (mkSuggest ([] ++ lit "ja" ++ lit "vas")
                      (mkDropdown DisplayNone [])))))
      (items (container
                (showSuggestions topicSuggestions
                   (mkSuggest (lit "ja") (mkDropdown DisplayNone []))))).
Proof.
  refine (showSuggestions_narrows topicSuggestions (lit "ja") [] (lit "vas")
            (mkDropdown DisplayNone []) (mkDropdown DisplayNone [])
            _ _ _ _).
  - discriminate.
  - reflexivity.
  - reflexivity.
  - reflexivity.
Defined.

End SuggestTheorems.

(** ** Debounce, for any sequence of calls *)

Section DebounceMoreTheorems.
Import Debounce DebounceMore.
Context {A : Type}.
Variable wait : N.

Lemma advance_idle (t : N) (l : Loop A) :
  pending l = [] →
  advance t l
  = mkLoop (N.max (now l) t) [] (next_timer l) (timeout l) (invoked l).
Proof. intros H. unfold advance. rewrite H. cbn. by rewrite H. Qed.

Lemma advance_one_timer (t : N) (l : Loop A) (tm : Timer A) :
  pending l = [tm] → timeout l = Some (timer_id tm) →
  advance t l
  = if decide (due tm ≤ t)
    then mkLoop (N.max (now l) t) [] (next_timer l) (timeout l)
                (invoked l ++ [args tm])
    else mkLoop (N.max (now l) t) [tm] (next_timer l) (timeout l) (invoked l).
Proof.
  intros Hp Ht. unfold advance. rewrite Hp. cbn [length fire_due].
  rewrite Hp. cbn [list_find].
  destruct (decide (due tm ≤ t)) as [Hd|Hd]; cbn.
  - destruct (decide (timer_id tm ≠ timer_id tm)) as [Hne|_];
      [by destruct Hne | done].
  - by rewrite Hp.
Qed.

Lemma executedFunction_idle (a : A) (l : Loop A) :
  pending l = [] →
  executedFunction wait a l
  = mkLoop (now l) [mkTimer (next_timer l) (now l + wait) a]
           (S (next_timer l)) (Some (next_timer l)) (invoked l).
Proof.
  intros H. unfold executedFunction, clearTimeout. cbn. by rewrite H.
Qed.

Lemma executedFunction_one_timer (a : A) (l : Loop A) (tm : Timer A) :
  pending l = [tm] → timeout l = Some (timer_id tm) →
  executedFunction wait a l
  = mkLoop (now l) [mkTimer (next_timer l) (now l + wait) a]
           (S (next_timer l)) (Some (next_timer l)) (invoked l).
Proof.
  intros Hp Ht. unfold executedFunction, clearTimeout. cbn.
  rewrite Hp, Ht, filter_cons.
  rewrite decide_False by (intros H; by apply H). by rewrite filter_nil.
Qed.

(** What a step does to a loop with at most one timer: the arguments
    invoked or pending afterwards are those before, with the pending one
    dropped and the new one added in case of a call. *)
Lemma step_one_timer (l : Loop A) (e : Event A) :
  one_timer l →
  one_timer (step wait l e)
  ∧ match e with
    | Call _ a =>
        invoked (step wait l e) ++ map args (pending (step wait l e))
        = invoked (step wait l e) ++ [a]
        ∧ (invoked (step wait l e) = invoked l
           ∨ invoked (step wait l e) = invoked l ++ map args (pending l))
    | Idle _ =>
        invoked (step wait l e) ++ map args (pending (step wait l e))
        = invoked l ++ map args (pending l)
    end.
Proof.
  intros [Hp | (tm & Hp & Ht)]; destruct e as [t a | t]; cbn [step].
  - rewrite (advance_idle t l Hp), executedFunction_idle by done. cbn.
    split; [right; eauto | split; [done | by left]].
  - rewrite (advance_idle t l Hp). cbn. rewrite Hp. split; [by left | done].
  - rewrite (advance_one_timer t l tm Hp Ht).
    destruct (decide (due tm ≤ t)).
    + rewrite executedFunction_idle by done. cbn. rewrite Hp.
      split; [right; eauto | split; [done | by right]].
    + rewrite (executedFunction_one_timer a _ tm) by done. cbn.
      split; [right; eauto | split; [done | by left]].
  - rewrite (advance_one_timer t l tm Hp Ht).
    destruct (decide (due tm ≤ t)); cbn; rewrite Hp; cbn.
    + split; [by left | by rewrite app_nil_r].
    + split; [right; eauto | done].
Qed.

Lemma run_one_timer (es : list (Event A)) :
  ∀ (l : Loop A) (seen : list A),
    one_timer l →
    sublist (invoked l ++ map args (pending l)) seen →
    one_timer (run wait es l)
    ∧ sublist (invoked (run wait es l) ++ map args (pending (run wait es l)))
              (seen ++ call_args es).
Proof.
  induction es as [|e es IH]; intros l seen Hl Hsub.
  - cbn. by rewrite app_nil_r.
  - destruct (step_one_timer l e Hl) as [Hl' He].
    unfold run. cbn [foldl].
    fold (run wait es (step wait l e)).
    destruct e as [t a | t]; cbn [call_args].
    + destruct He as [Heq Hinv].
      replace (seen ++ a :: call_args es) with ((seen ++ [a]) ++ call_args es)
        by (by rewrite <- app_assoc).
      apply IH; [done|]. rewrite Heq.
      apply sublist_app; [|done].
      destruct Hinv as [-> | ->]; [|done].
      etrans; [|exact Hsub]. by apply sublist_inserts_r.
    + apply IH; [done|]. by rewrite He.
Qed.

(** X8.  Whatever the calls and pauses, a debounced function has at most
    one timer pending, and the variable [timeout] of its closure holds the
    id of that timer. *)
Theorem debounce_at_most_one_timer :
  ∀ (es : list (Event A)),
    (length (pending (run wait es init)) ≤ 1)%nat
    ∧ ∀ tm, tm ∈ pending (run wait es (@init A)) →
            timeout (run wait es (@init A)) = Some (timer_id tm).
Proof.
  intros es.
  destruct (run_one_timer es init [] (or_introl eq_refl)) as [Hone _]; [done|].
  destruct Hone as [-> | (tm & -> & Ht)].
  - split; [simpl; lia|]. intros tm Hin. by apply elem_of_nil in Hin.
  - split; [simpl; lia|]. intros tm' Hin.
    apply list_elem_of_singleton in Hin. by subst.
Qed.

(** X9.  Whatever the calls and pauses, the arguments [func] has been
    invoked with, followed by those of the pending timer, are a
    subsequence of the arguments of the calls made: [func] is never invoked
    with arguments that were not passed, never twice for one call and
    never out of order. *)
Theorem debounce_invokes_subsequence_of_calls :
  ∀ (es : list (Event A)),
    sublist (invoked (run wait es init)
             ++ map args (pending (run wait es init)))
            (call_args es).
Proof.
  intros es.
  by destruct (run_one_timer es init [] (or_introl eq_refl)) as [_ Hsub].
Qed.

(** X10.  A burst of calls of any length, each made before the timer of
    the previous one is due, invokes [func] exactly once, when [wait] has
    passed after the last call, with the arguments of the last call. *)
Theorem debounce_burst_of_any_length :
  ∀ (t : N) (a : A) (calls : list (N * A)) (T : N),
    chained wait t calls →
    (last_call t a calls).1 + wait ≤ T →
    invoked (run wait (Call t a :: map (λ c, Call c.1 c.2) calls) init) = []
    ∧ invoked (run wait (Call t a :: map (λ c, Call c.1 c.2) calls
                         ++ [Idle T]) init)
      = [(last_call t a calls).2].
Proof.
  intros t a calls T Hch HT.
  assert (run wait (Call t a :: map (λ c, Call c.1 c.2) calls) init
          = armed (last_call t a calls).1 ((last_call t a calls).1 + wait)
                  (length calls + 0) (last_call t a calls).2 []) as Hrun.
  { unfold run. cbn [foldl]. rewrite call_init.
    by apply (run_chained wait calls t 0%nat a []). }
  split; [by rewrite Hrun|].
  unfold run in *. rewrite app_comm_cons, foldl_app, Hrun. cbn [foldl].
  by rewrite idle_armed_due by lia.
Qed.

Lemma turn_call_idle (l : Loop A) (t : N) (a : A) :
  pending l = [] → now l ≤ t →
  turn_step wait l (Call t a)
  = mkLoop t [mkTimer (next_timer l) (t + wait) a]
           (S (next_timer l)) (Some (next_timer l)) (invoked l).
Proof.
  intros Hp Hn. cbn [turn_step].
  rewrite executedFunction_idle by done. cbn.
  by rewrite N.max_r by done.
Qed.

Lemma turn_call_one_timer (l : Loop A) (tm : Timer A) (t : N) (a : A) :
  pending l = [tm] → timeout l = Some (timer_id tm) → now l ≤ t →
  turn_step wait l (Call t a)
  = mkLoop t [mkTimer (next_timer l) (t + wait) a]
           (S (next_timer l)) (Some (next_timer l)) (invoked l).
Proof.
  intros Hp Ht Hn. cbn [turn_step].
  rewrite (executedFunction_one_timer a (tick t l) tm) by done. cbn.
  by rewrite N.max_r by done.
Qed.

(** A call on an idle loop, followed by a turn of the loop once its
    timer is due, is served. *)
Lemma turn_call_then_turn (l : Loop A) (t T : N) (a : A) :
  pending l = [] → now l ≤ t → t + wait ≤ T →
  turn_step wait (turn_step wait l (Call t a)) (Idle T)
  = mkLoop T [] (S (next_timer l)) (Some (next_timer l)) (invoked l ++ [a]).
Proof.
  intros Hp Hn HT. rewrite turn_call_idle by done. cbn [turn_step].
  rewrite (advance_one_timer T _ (mkTimer (next_timer l) (t + wait) a))
    by done.
  cbn [due]. rewrite decide_True by done. cbn.
  by rewrite N.max_r by lia.
Qed.

Lemma turn_run_followed (calls : list (N * A * N)) :
  ∀ (l : Loop A),
    pending l = [] →
    followed_by_turn wait (now l) calls →
    invoked (turn_run wait (calls_and_turns calls) l)
    = invoked l ++ map (λ c, c.1.2) calls.
Proof.
  induction calls as [|[[t a] T] calls IH]; intros l Hp Hf.
  - cbn. by rewrite app_nil_r.
  - destruct Hf as (Hn & HT & Hf).
    change (calls_and_turns ((t, a, T) :: calls))
      with (Call t a :: Idle T :: calls_and_turns calls).
    unfold turn_run. cbn [foldl].
    rewrite turn_call_then_turn by done.
    fold (turn_run wait (calls_and_turns calls)
            (mkLoop T [] (S (next_timer l)) (Some (next_timer l))
                    (invoked l ++ [a]))).
    rewrite IH by done. cbn. by rewrite <- app_assoc.
Qed.

(** X11.  A call is served when the event loop runs its timer before the
    next call: calls that are each followed, before the next one, by a
    turn of the event loop at or after the time their timer is due are
    all served, in order.  Of two calls with no turn of the loop between
    them only the second is served, however long after the first it
    comes: its [clearTimeout] cancels the first timer even when that
    timer is already due. *)
Theorem debounce_served_when_timer_ran :
  (∀ (calls : list (N * A * N)),
     followed_by_turn wait 0 calls →
     invoked (turn_run wait (calls_and_turns calls) init)
     = map (λ c, c.1.2) calls)
  ∧ (∀ (t t' T : N) (a a' : A),
       t ≤ t' → t' + wait ≤ T →
       invoked (turn_run wait [Call t a; Call t' a'; Idle T] init) = [a']).
Proof.
  split.
  - intros calls Hf. by rewrite (turn_run_followed calls init).
  - intros t t' T a a' Htt HT. unfold turn_run. cbn [foldl].
    rewrite (turn_call_idle init t a); [|done|cbn; lia].
    rewrite (turn_call_one_timer _ (mkTimer 0 (t + wait) a) t' a')
      by done.
    cbn [turn_step next_timer invoked].
    rewrite (advance_one_timer T _ (mkTimer 1 (t' + wait) a')) by done.
    cbn [due]. by rewrite decide_True by done.
Qed.

End DebounceMoreTheorems.

Lemma debounce_burst_of_any_length_witness :
  Debounce.invoked
    (Debounce.run 300
       (Debounce.Call 0 (lit "a")
        :: map (λ c, Debounce.Call c.1 c.2)
             [(100, lit "ab"); (200, lit "abc"); (450, lit "abcd")]
        ++ [Debounce.Idle 750])
       Debounce.init)
  = [lit "abcd"].
Proof.
  apply (debounce_burst_of_any_length 300 0 (lit "a")
           [(100, lit "ab"); (200, lit "abc"); (450, lit "abcd")] 750).
  - cbn. lia.
  - cbn. lia.
Defined.

Lemma debounce_served_when_timer_ran_witness :
  Debounce.invoked
    (DebounceMore.turn_run 300
       (DebounceMore.calls_and_turns
          [(0, lit "a", 300); (300, lit "b", 700); (1000, lit "c", 1300)])
       Debounce.init)
  = [lit "a"; lit "b"; lit "c"]
  ∧ Debounce.invoked
      (DebounceMore.turn_run 300
         [Debounce.Call 0 (lit "a"); Debounce.Call 300 (lit "b");
          Debounce.Idle 600]
         Debounce.init)
    = [lit "b"].
Proof.
  split.
  - refine (proj1 (debounce_served_when_timer_ran 300)
              [(0, lit "a", 300); (300, lit "b", 700); (1000, lit "c", 1300)]
              _).
    cbn. lia.
  - refine (proj2 (debounce_served_when_timer_ran 300)
              0 300 600 (lit "a") (lit "b") _ _); lia.
Defined.

(** ** [MobileOptimizer] *)

Section MobileTheorems.
Import Mobile.

Lemma au_typed_init (v0 : jsstring) (t : N) (v : jsstring) :
  au_step (au_init v0) (Typed t v) = au_armed t (t + 300) v 0 [].
Proof. unfold au_step, au_advance, au_on_input, au_armed. cbn.
       by rewrite N.max_0_l. Qed.

Lemma au_typed_armed nw d v0 id ds t v :
  nw ≤ t → t < d →
  au_step (au_armed nw d v0 id ds) (Typed t v)
  = au_armed t (t + 300) v (S id) ds.
Proof.
  intros Hnw Hd. unfold au_step, au_advance, au_armed. cbn.
  destruct (decide (d ≤ t)) as [?|_]; [lia|]. cbn.
  unfold au_on_input. cbn.
  destruct (decide (Some id ≠ Some id)) as [Hne|_]; [by destruct Hne|].
  cbn. by rewrite N.max_r by done.
Qed.

Lemma au_assigned_armed nw d v0 id ds t v :
  nw ≤ t → t < d →
  au_step (au_armed nw d v0 id ds) (Assigned t v) = au_armed t d v id ds.
Proof.
  intros Hnw Hd. unfold au_step, au_advance, au_armed. cbn.
  destruct (decide (d ≤ t)) as [?|_]; [lia|]. cbn.
  by rewrite N.max_r by done.
Qed.

Lemma au_waited_armed_due nw d v0 id ds t :
  nw ≤ t → d ≤ t →
  au_step (au_armed nw d v0 id ds) (Waited t)
  = mkAuto t v0 [] (S id) (Some id) (ds ++ [v0]).
Proof.
  intros Hnw Hd. unfold au_step, au_advance, au_armed. cbn.
  destruct (decide (d ≤ t)) as [_|?]; [|lia]. cbn.
  destruct (decide (id ≠ id)) as [Hne|_]; [by destruct Hne|].
  cbn. by rewrite N.max_r by done.
Qed.

Lemma au_run_chained (inputs : list (N * jsstring)) :
  ∀ (t0 : N) (v0 : jsstring) (id : nat) (ds : list jsstring),
    au_chained t0 inputs →
    au_run (map (λ i, Typed i.1 i.2) inputs) (au_armed t0 (t0 + 300) v0 id ds)
    = au_armed (List.last inputs (t0, v0)).1
               ((List.last inputs (t0, v0)).1 + 300)
               (List.last inputs (t0, v0)).2
               (length inputs + id) ds.
Proof.
  induction inputs as [|[t v] inputs IH]; intros t0 v0 id ds Hch; [done|].
  destruct Hch as (Hle & Hlt & Hch). cbn [map au_run foldl fst snd].
  rewrite au_typed_armed by done.
  fold (au_run (map (λ i, Typed i.1 i.2) inputs)
          (au_armed t (t + 300) v (S id) ds)).
  rewrite IH by done.
  replace (length inputs + S id)%nat with (length ((t, v) :: inputs) + id)%nat
    by (simpl; lia).
  destruct inputs as [|i inputs]; [done|].
  change (List.last ((t, v) :: i :: inputs) (t0, v0))
    with (List.last (i :: inputs) (t0, v0)).
  by rewrite (last_default inputs i (t, v) (t0, v0)).
Qed.

(** X12.  On an input enhanced by [enhanceAutocomplete], a burst of input
    events of any length, each less than 300 ms after the previous one,
    dispatches no [autocomplete-search] event while it lasts and exactly
    one when 300 ms have passed after the last input; the event carries the
    last value typed.  If a script assigns another value to the input
    before that timer fires, the one event carries the assigned value. *)
Theorem enhanceAutocomplete_burst :
  ∀ (v0 : jsstring) (t : N) (v : jsstring) (inputs : list (N * jsstring))
    (T : N),
    au_chained t inputs →
    (List.last inputs (t, v)).1 + 300 ≤ T →
    au_dispatched
      (au_run (Typed t v :: map (λ i, Typed i.1 i.2) inputs) (au_init v0))
    = []
    ∧ au_dispatched
        (au_run (Typed t v :: map (λ i, Typed i.1 i.2) inputs ++ [Waited T])
           (au_init v0))
      = [(List.last inputs (t, v)).2]
    ∧ ∀ t' v', (List.last inputs (t, v)).1 ≤ t' →
               t' < (List.last inputs (t, v)).1 + 300 →
        au_dispatched
          (au_run (Typed t v :: map (λ i, Typed i.1 i.2) inputs
                   ++ [Assigned t' v'; Waited T])
             (au_init v0))
        = [v'].
Proof.
  intros v0 t v inputs T Hch HT.
  assert (au_run (Typed t v :: map (λ i, Typed i.1 i.2) inputs) (au_init v0)
          = au_armed (List.last inputs (t, v)).1
                     ((List.last inputs (t, v)).1 + 300)
                     (List.last inputs (t, v)).2 (length inputs + 0) [])
    as Hrun.
  { unfold au_run. cbn [foldl]. rewrite au_typed_init.
    by apply (au_run_chained inputs t v 0%nat []). }
  split; [by rewrite Hrun|]. split.
  - unfold au_run in *. rewrite app_comm_cons, foldl_app, Hrun. cbn [foldl].
    by rewrite au_waited_armed_due by lia.
  - intros t' v' Hle Hlt.
    unfold au_run in *. rewrite app_comm_cons, foldl_app, Hrun. cbn [foldl].
    rewrite au_assigned_armed by done.
    by rewrite au_waited_armed_due by lia.
Qed.

Lemma enhanceAutocomplete_burst_witness :
  au_dispatched
    (au_run (Typed 0 (lit "u")
             :: map (λ i, Typed i.1 i.2) [(100, lit "un"); (250, lit "uni")]
             ++ [Waited 550])
       (au_init []))
  = [(List.last [(100, lit "un"); (250, lit "uni")] (0, lit "u")).2].
Proof.
  refine (proj1 (proj2 (enhanceAutocomplete_burst [] 0 (lit "u")
                          [(100, lit "un"); (250, lit "uni")] 550 _ _))).
  - cbn. lia.
  - cbn. lia.
Defined.

Lemma sidebar_step_consistent (s : Sidebar) (o : SidebarOp) :
  has_sidebar s = true → has_overlay s = true →
  sidebar_consistent s →
  has_sidebar (sidebar_step s o) = true
  ∧ has_overlay (sidebar_step s o) = true
  ∧ sidebar_consistent (sidebar_step s o).
Proof.
  intros Hs Ho Hc. destruct s as [hs sh ho os bo mob]. cbn in Hs, Ho. subst.
  destruct o as [| | |w]; cbn; unfold toggleMobileSidebar, handleResize; cbn.
  - by destruct sh.
  - done.
  - done.
  - destruct mob, (w <? 768); cbn; try done.
Qed.

(** X13.  With a sidebar and an overlay on the page, after the sidebar has
    been opened, closed or toggled once, every further open, close, toggle
    and resize keeps the overlay shown and the page scroll locked exactly
    when the sidebar is shown.  Without a sidebar none of the four touches
    the class [show] of the overlay or the page scroll: opening, closing
    and toggling change nothing at all, and of what is represented a
    resize changes [isMobile] only. *)
Theorem sidebar_overlay_and_scroll_lock :
  ∀ (s : Sidebar) (o : SidebarOp) (os : list SidebarOp),
    (has_sidebar s = true → has_overlay s = true →
     (∀ w, o ≠ Resize w) →
     sidebar_consistent (foldl sidebar_step (sidebar_step s o) os))
    ∧ (has_sidebar s = false →
       has_sidebar (foldl sidebar_step s (o :: os)) = false
       ∧ sidebar_show (foldl sidebar_step s (o :: os)) = sidebar_show s
       ∧ has_overlay (foldl sidebar_step s (o :: os)) = has_overlay s
       ∧ overlay_show (foldl sidebar_step s (o :: os)) = overlay_show s
       ∧ body_overflow (foldl sidebar_step s (o :: os)) = body_overflow s
       ∧ ((∀ w, Resize w ∉ o :: os) → foldl sidebar_step s (o :: os) = s)).
Proof.
  intros s o os. split.
  - intros Hs Ho Hres.
    assert (has_sidebar (sidebar_step s o) = true
            ∧ has_overlay (sidebar_step s o) = true
            ∧ sidebar_consistent (sidebar_step s o)) as H1.
    { destruct s as [hs sh ho so bo mob]. cbn in Hs, Ho. subst.
      destruct o as [| | |w]; [| | |by destruct (Hres w)];
        cbn; unfold toggleMobileSidebar; cbn; try done.
      by destruct sh. }
    revert H1. generalize (sidebar_step s o). clear.
    induction os as [|o os IH]; intros s (Hs & Ho & Hc); [done|].
    cbn [foldl]. apply IH. by apply sidebar_step_consistent.
  - intros Hs. generalize (o :: os). clear o os. intros os.
    revert s Hs. induction os as [|o os IH]; intros s Hs; [done|].
    cbn [foldl].
    assert (has_sidebar (sidebar_step s o) = false
            ∧ sidebar_show (sidebar_step s o) = sidebar_show s
            ∧ has_overlay (sidebar_step s o) = has_overlay s
            ∧ overlay_show (sidebar_step s o) = overlay_show s
            ∧ body_overflow (sidebar_step s o) = body_overflow s
            ∧ ((∀ w, o ≠ Resize w) → sidebar_step s o = s))
      as (Hs' & <- & <- & <- & <- & Hsame).
    { destruct s as [hs sh ho so bo mob]. cbn in Hs. subst.
      destruct o as [| | |w]; cbn; try done.
      unfold handleResize. cbn.
      destruct mob, (w <? 768); repeat split; try done;
        intros H; by destruct (H w). }
    destruct (IH _ Hs') as (H1 & H2 & H3 & H4 & H5 & H6).
    repeat split; try done.
    intros Hno. rewrite H6.
    + apply Hsame. intros w ->. apply (Hno w). by left.
    + intros w Hin. apply (Hno w). by right.
Qed.

Lemma sidebar_overlay_and_scroll_lock_witness :
  sidebar_consistent
    (foldl sidebar_step
       (sidebar_step (mkSidebar true false true false [] true) Toggle)
       [Resize 1024; Open; Toggle])
  ∧ foldl sidebar_step (mkSidebar false false true false [] true)
      [Toggle; Open; Close]
    = mkSidebar false false true false [] true.
Proof.
  split.
  - refine (proj1 (sidebar_overlay_and_scroll_lock
                     (mkSidebar true false true false [] true) Toggle
                     [Resize 1024; Open; Toggle]) _ _ _);
      [reflexivity | reflexivity | discriminate].
  - destruct (proj2 (sidebar_overlay_and_scroll_lock
                       (mkSidebar false false true false [] true) Toggle
                       [Open; Close]) eq_refl)
      as (_ & _ & _ & _ & _ & Hsame).
    apply Hsame. intros w Hin.
    repeat (apply elem_of_cons in Hin as [Hin|Hin]; [discriminate|]).
    by apply elem_of_nil in Hin.
Defined.

End MobileTheorems.

(** ** [ModalManager]: what a scan registers *)

Section ManagerMoreTheorems.
Import Manager ManagerMore.

Variable ctor_throws : jsstring → bool.
Variable dispose_throws : nat → bool.

Local Abbreviation init_one := (init_one ctor_throws).
Local Abbreviation cleanup := (cleanup dispose_throws).
Local Abbreviation initializeModals :=
  (initializeModals ctor_throws dispose_throws).

(** X14.  After a scan the registry holds exactly the ids of the modal
    elements whose construction did not throw: a constructor that throws
    for one element leaves that element out and does not keep the others
    from being registered. *)
Theorem initializeModals_registers_constructed :
  ∀ (s : State) (id : jsstring),
    is_Some (modals (initializeModals s) !! id)
    ↔ (∃ e, e ∈ elements s ∧ el_id e = id) ∧ ctor_throws id = false.
Proof.
  intros s id.
  destruct (initializeModals_facts ctor_throws dispose_throws s) as (Hdom & _).
  rewrite <- elem_of_dom, Hdom. unfold registered_ids.
  rewrite elem_of_list_to_set, list_elem_of_filter, list_elem_of_fmap.
  split.
  - intros [Hc (e & -> & He)]. eauto.
  - intros [(e & He & <-) Hc]. eauto.
Qed.

Lemma well_formed_ensureModalStructure e : well_formed (ensureModalStructure e).
Proof. unfold ensureModalStructure, well_formed. by destruct (has_dialog e). Qed.

Lemma well_formed_attachEventListeners inst e :
  well_formed e → well_formed (attachEventListeners inst e).
Proof. done. Qed.

Lemma fold_init_one_well_formed (es : list ModalElement) :
  ∀ s visited,
    Forall well_formed visited →
    Forall well_formed (foldl init_one (s, visited) es).2.
Proof.
  induction es as [|e es IH]; intros s visited Hd; [done|].
  cbn [foldl]. unfold Manager.init_one at 2.
  destruct (ctor_throws (el_id (ensureModalStructure e))); apply IH;
    apply Forall_app; (split; [done|]); apply Forall_singleton.
  - apply well_formed_ensureModalStructure.
  - apply well_formed_attachEventListeners, well_formed_ensureModalStructure.
Qed.

(** X15.  When a scan is over, every node it visited (the nodes that
    [querySelectorAll('.modal')] returned when the scan began, registered
    or not) has the class [fade], the attribute [tabindex="-1"] and
    contains a [.modal-dialog]; the nodes are the same, in the same
    order.  This is about the nodes visited: a modal nested in a modal
    that [ensureModalStructure] rebuilds is visited as the node found at
    the beginning, while the document then holds a copy of it that the
    scan does not visit. *)
Theorem initializeModals_normalizes_elements :
  ∀ (s : State),
    Forall well_formed (elements (initializeModals s))
    ∧ map el_id (elements (initializeModals s)) = map el_id (elements s).
Proof.
  intros s. split.
  - unfold Manager.initializeModals.
    pose proof (fold_init_one_well_formed (elements (cleanup s)) (cleanup s) []
                  (Forall_nil_2 _)) as H.
    by destruct (foldl init_one _ _) as [s' es].
  - by destruct (initializeModals_facts ctor_throws dispose_throws s)
      as (_ & ? & _).
Qed.

Lemma fold_init_one_handles (lo : nat) (es : list ModalElement) :
  ∀ s visited,
    (lo ≤ next_inst s)%nat →
    (∀ id inst, modals s !! id = Some inst → (lo ≤ inst < next_inst s)%nat) →
    let r := foldl init_one (s, visited) es in
    (next_inst s ≤ next_inst r.1)%nat
    ∧ ∀ id inst, modals r.1 !! id = Some inst →
                 (lo ≤ inst < next_inst r.1)%nat.
Proof.
  induction es as [|e es IH]; intros s visited Hlo Hs; cbn [foldl]; cbn zeta.
  - split; [done|]. apply Hs.
  - destruct (init_one (s, visited) e) as [s1 d1] eqn:Hone.
    assert ((next_inst s ≤ next_inst s1)%nat
            ∧ ∀ id inst, modals s1 !! id = Some inst →
                         (lo ≤ inst < next_inst s1)%nat) as [Hn1 Hs1].
    { unfold Manager.init_one in Hone.
      destruct (ctor_throws (el_id (ensureModalStructure e)));
        injection Hone as <- <-; cbn [next_inst modals].
      - split; [done|]. apply Hs.
      - split; [lia|]. intros id inst.
        destruct (decide (el_id (ensureModalStructure e) = id)) as [->|Hne].
        + rewrite lookup_insert_eq. intros [= <-]. lia.
        + rewrite lookup_insert_ne by done. intros Hi.
          specialize (Hs _ _ Hi). lia. }
    assert (lo ≤ next_inst s1)%nat as Hlo1 by lia.
    specialize (IH s1 d1 Hlo1 Hs1). cbn zeta in IH. destruct IH as [Hn Hr].
    split; [lia | done].
Qed.

Lemma next_inst_cleanup s : next_inst (cleanup s) = next_inst s.
Proof.
  unfold Manager.cleanup. cbn [next_inst].
  by destruct (fold_dispose_one dispose_throws (map_to_list (modals s)) s)
    as (_ & _ & ->).
Qed.

(** X16.  In a state where every handle registered or disposed is one
    already constructed, a scan hands out handles that have never been
    disposed: no id of the registry maps to a handle [dispose()] was called
    on, and the same holds after every further scan. *)
Theorem initializeModals_handles_not_disposed :
  ∀ (s : State),
    handles_known s →
    handles_known (initializeModals s)
    ∧ ∀ id inst, modals (initializeModals s) !! id = Some inst →
                 inst ∉ dispose_calls (initializeModals s).
Proof.
  intros s [Hreg Hdis].
  destruct (cleanup_facts dispose_throws s) as (Hm & _ & _ & Hd).
  pose proof (next_inst_cleanup s) as Hn.
  assert (∀ inst, inst ∈ dispose_calls (cleanup s) →
                  (inst < next_inst s)%nat) as Hold.
  { intros inst. rewrite Hd, elem_of_app. intros [Hin|Hin]; [by apply Hdis|].
    apply list_elem_of_fmap in Hin as ([id i] & -> & Hin).
    apply elem_of_map_to_list in Hin. by eapply Hreg. }
  pose proof (fold_init_one_handles (next_inst s) (elements (cleanup s))
                (cleanup s) []) as Hfold.
  pose proof (fold_init_one ctor_throws (elements (cleanup s)) (cleanup s) [])
    as Hfacts.
  cbn zeta in Hfold, Hfacts.
  unfold Manager.initializeModals.
  destruct (foldl init_one _ _) as [s' es]. cbn [fst snd] in Hfold, Hfacts.
  destruct Hfacts as (_ & _ & Hd' & _).
  destruct Hfold as [Hle Hnew].
  { by rewrite Hn. }
  { intros id inst. by rewrite Hm, lookup_empty. }
  unfold handles_known. cbn [modals dispose_calls next_inst].
  rewrite Hn in Hle.
  split; [split|].
  - intros id inst Hi. by destruct (Hnew _ _ Hi).
  - intros inst. rewrite Hd'. intros Hin. specialize (Hold _ Hin). lia.
  - intros id inst Hi. rewrite Hd'. intros Hin.
    specialize (Hold _ Hin). destruct (Hnew _ _ Hi). lia.
Qed.

End ManagerMoreTheorems.

Lemma initializeModals_registers_constructed_witness :
  is_Some
    (Manager.modals
       (Manager.initializeModals
          (λ id, bool_decide (id = lit "loginModal")) Manager.never_throws
          (Manager.fresh ManagerMore.two_modals))
     !! lit "signupModal").
Proof.
  apply (initializeModals_registers_constructed
           (λ id, bool_decide (id = lit "loginModal")) Manager.never_throws
           (Manager.fresh ManagerMore.two_modals) (lit "signupModal")).
  split; [|reflexivity].
  exists (Manager.mkModalElement (lit "signupModal") false None false [] [] []).
  split; [|reflexivity]. right. left.
Defined.

Lemma handles_known_fresh (es : list Manager.ModalElement) :
  ManagerMore.handles_known (Manager.fresh es).
Proof.
  split.
  - intros id inst H. cbn in H. by rewrite lookup_empty in H.
  - intros inst H. by apply elem_of_nil in H.
Qed.

Lemma initializeModals_handles_not_disposed_witness :
  1%nat ∉ Manager.dispose_calls Manager.scanned_twice.
Proof.
  pose proof (initializeModals_handles_not_disposed
                Manager.never_throws Manager.never_throws
                (Manager.fresh Manager.one_modal)
                (handles_known_fresh Manager.one_modal)) as [Hknown _].
  apply (proj2 (initializeModals_handles_not_disposed
                  Manager.never_throws Manager.never_throws
                  Manager.scanned_once Hknown)
           (lit "loginModal") 1%nat).
  reflexivity.
Defined.

(** ** The emergency modal fix: one open/close cycle, and what piles up *)

Section EmergencyMoreTheorems.
Import Emergency.

Lemma is_shown_closeModal_same m d : is_shown m (closeModal m d) = false.
Proof.
  unfold is_shown, closeModal. cbn [modal_els]. rewrite lookup_alter_eq.
  by destruct (modal_els d !! m).
Qed.

Lemma is_shown_closeModal_ne m t d :
  t ≠ m → is_shown m (closeModal t d) = is_shown m d.
Proof.
  intros Hne. unfold is_shown, closeModal. cbn [modal_els].
  by rewrite lookup_alter_ne.
Qed.

Lemma is_shown_closeModal_false m t d :
  is_shown m d = false → is_shown m (closeModal t d) = false.
Proof.
  intros H. destruct (decide (t = m)) as [->|Hne].
  - apply is_shown_closeModal_same.
  - by rewrite is_shown_closeModal_ne.
Qed.

Lemma body_closeModal m d : body (closeModal m d) = mkBody false [] [].
Proof. done. Qed.

(** After the document's Escape listeners have run, either none has
    closed anything, or the body is reset and a backdrop is gone. *)
Lemma fold_escape_effect (ts : list jsstring) :
  ∀ d, let d' := foldl (λ d t, if is_shown t d then closeModal t d else d) d ts in
       (∀ m, is_shown m d = false → is_shown m d' = false)
       ∧ (d' = d
          ∨ (body d' = mkBody false [] []
             ∧ (length (backdrops d') ≤ pred (length (backdrops d)))%nat)).
Proof.
  induction ts as [|t ts IH]; intros d; cbn [foldl]; cbn zeta.
  - split; [done | by left].
  - destruct (is_shown t d) eqn:Ht.
    + specialize (IH (closeModal t d)). cbn zeta in IH.
      destruct IH as [Hsh Heff]. split.
      * intros m Hm. by apply Hsh, is_shown_closeModal_false.
      * right. destruct Heff as [-> | [Hb Hl]].
        -- split; [done|]. by rewrite length_backdrops_closeModal.
        -- split; [done|]. rewrite length_backdrops_closeModal in Hl. lia.
    + apply IH.
Qed.

Lemma fold_close_effect (ts : list jsstring) :
  ∀ d, (∀ m, is_shown m d = false →
             is_shown m (foldl (λ d t, closeModal t d) d ts) = false).
Proof.
  induction ts as [|t ts IH]; intros d m Hm; cbn [foldl]; [done|].
  by apply IH, is_shown_closeModal_false.
Qed.

Lemma length_le_1_nil {B} (l : list B) : (length l ≤ 0)%nat → l = [].
Proof. destruct l; [done | simpl; lia]. Qed.

(** X17.  A modal opened by a trigger click in a document without
    backdrop, and then dismissed by its close control, by a click on the
    backdrop just added or by the Escape key, is hidden again; no backdrop
    is left, [modal-open] is off the body and the body's inline [overflow]
    and [padding-right] are empty. *)
Theorem open_then_dismiss_restores :
  ∀ (d : Doc) (sel : jsstring) (o : Op),
    is_Some (modal_els d !! sel) →
    backdrops d = [] →
    o = CloseClick sel ∨ o = BackdropClick (next_node d) ∨ o = EscapeKey →
    backdrops (run [TriggerClick sel; o] d) = []
    ∧ is_shown sel (run [TriggerClick sel; o] d) = false
    ∧ body (run [TriggerClick sel; o] d) = mkBody false [] [].
Proof.
  intros d sel o [e He] Hb Ho. unfold run. cbn [foldl].
  change (step d (TriggerClick sel)) with (trigger_click sel d).
  assert (backdrops (trigger_click sel d) = [mkBackdrop (next_node d) sel])
    as Hb1 by (by rewrite (backdrops_trigger_click sel d e He), Hb).
  pose proof (modal_els_trigger_click sel d e He) as He1.
  assert (keydown_listeners (trigger_click sel d) = keydown_listeners d ++ [sel])
    as Hk1 by (unfold trigger_click; by rewrite He).
  assert (is_shown sel (trigger_click sel d) = true) as Hs1
    by (unfold is_shown; by rewrite He1).
  generalize dependent (trigger_click sel d). intros d1 Hb1 He1 Hk1 Hs1.
  destruct Ho as [-> | [-> | ->]]; cbn [step].
  - unfold close_click. rewrite He1. cbn [close_listeners].
    rewrite foldl_app. cbn [foldl].
    pose proof (length_backdrops_fold_close (close_listeners e) d1) as Hl.
    rewrite Hb1 in Hl. cbn [length] in Hl.
    split; [|split; [apply is_shown_closeModal_same | done]].
    rewrite backdrops_closeModal.
    destruct (backdrops (foldl _ d1 (close_listeners e))) as [|b [|b' l]];
      [done | done | simpl in Hl; lia].
  - unfold backdrop_click. rewrite Hb1. cbn [list_find node].
    rewrite decide_True by done. cbn [fmap option_fmap option_map closes].
    rewrite backdrops_closeModal, Hb1.
    split; [done | split; [apply is_shown_closeModal_same | done]].
  - unfold escape_key. rewrite Hk1, foldl_app. cbn [foldl].
    pose proof (fold_escape_effect (keydown_listeners d) d1) as [Hsh Heff].
    cbn zeta in Hsh, Heff.
    set (d2 := foldl _ d1 (keydown_listeners d)) in *.
    destruct (is_shown sel d2) eqn:Hs2.
    + split; [|split; [apply is_shown_closeModal_same | done]].
      rewrite backdrops_closeModal.
      destruct Heff as [-> | [_ Hl]]; [by rewrite Hb1|].
      rewrite Hb1 in Hl. cbn in Hl.
      by rewrite (length_le_1_nil _ Hl).
    + destruct Heff as [Heq | [Hbody Hl]].
      * rewrite Heq in Hs2. congruence.
      * rewrite Hb1 in Hl. cbn in Hl.
        by rewrite (length_le_1_nil _ Hl).
Qed.

Lemma open_then_dismiss_restores_witness :
  backdrops (run [TriggerClick (lit "#loginModal"); EscapeKey]
               (start [lit "#loginModal"])) = []
  ∧ is_shown (lit "#loginModal")
      (run [TriggerClick (lit "#loginModal"); EscapeKey]
         (start [lit "#loginModal"])) = false
  ∧ body (run [TriggerClick (lit "#loginModal"); EscapeKey]
            (start [lit "#loginModal"])) = mkBody false [] [].
Proof.
  apply (open_then_dismiss_restores (start [lit "#loginModal"])
           (lit "#loginModal") EscapeKey).
  - exists (mkModalEl false false []). reflexivity.
  - reflexivity.
  - right. right. reflexivity.
Defined.

Lemma is_Some_closeModal m sel d :
  is_Some (modal_els (closeModal m d) !! sel) ↔ is_Some (modal_els d !! sel).
Proof.
  unfold closeModal. cbn [modal_els].
  destruct (decide (m = sel)) as [->|Hne].
  - rewrite lookup_alter_eq. by rewrite fmap_is_Some.
  - by rewrite lookup_alter_ne.
Qed.

Lemma fold_close_frame (ts : list jsstring) :
  ∀ d, keydown_listeners (foldl (λ d t, closeModal t d) d ts)
       = keydown_listeners d
       ∧ ∀ sel, is_Some (modal_els (foldl (λ d t, closeModal t d) d ts) !! sel)
                ↔ is_Some (modal_els d !! sel).
Proof.
  induction ts as [|t ts IH]; intros d; cbn [foldl]; [done|].
  destruct (IH (closeModal t d)) as [Hk Hs]. split; [by rewrite Hk|].
  intros sel. by rewrite Hs, is_Some_closeModal.
Qed.

Lemma fold_escape_frame (ts : list jsstring) :
  ∀ d, keydown_listeners
         (foldl (λ d t, if is_shown t d then closeModal t d else d) d ts)
       = keydown_listeners d
       ∧ ∀ sel,
           is_Some (modal_els
                      (foldl (λ d t, if is_shown t d then closeModal t d else d)
                             d ts) !! sel)
           ↔ is_Some (modal_els d !! sel).
Proof.
  induction ts as [|t ts IH]; intros d; cbn [foldl]; [done|].
  destruct (is_shown t d); [|apply IH].
  destruct (IH (closeModal t d)) as [Hk Hs]. split; [by rewrite Hk|].
  intros sel. by rewrite Hs, is_Some_closeModal.
Qed.

Lemma step_frame (d : Doc) (o : Op) :
  keydown_listeners (step d o)
  = keydown_listeners d
    ++ match o with
       | TriggerClick sel =>
           if bool_decide (is_Some (modal_els d !! sel)) then [sel] else []
       | _ => []
       end
  ∧ ∀ sel, is_Some (modal_els (step d o) !! sel)
           ↔ is_Some (modal_els d !! sel).
Proof.
  destruct o as [sel|m|n|]; cbn [step].
  - unfold trigger_click. destruct (modal_els d !! sel) as [e|] eqn:He.
    + rewrite bool_decide_eq_true_2 by eauto. split; [done|].
      intros sel'. cbn [modal_els].
      destruct (decide (sel = sel')) as [->|Hne].
      * rewrite lookup_insert_eq, He. split; eauto.
      * by rewrite lookup_insert_ne.
    + rewrite bool_decide_eq_false_2 by (by intros [? ?]).
      by rewrite app_nil_r.
  - rewrite app_nil_r. unfold close_click.
    destruct (modal_els d !! m); [apply fold_close_frame | done].
  - rewrite app_nil_r. unfold backdrop_click.
    destruct (list_find _ _) as [[i b]|]; [|done].
    split; [done|]. intros sel. apply is_Some_closeModal.
  - rewrite app_nil_r. apply fold_escape_frame.
Qed.

Lemma run_keydown_listeners (ops : list Op) :
  ∀ d0 d,
    (∀ sel, is_Some (modal_els d !! sel) ↔ is_Some (modal_els d0 !! sel)) →
    ∃ added,
      keydown_listeners (run ops d) = keydown_listeners d ++ added
      ∧ length added = EmergencyMore.count_opens d0 ops.
Proof.
  induction ops as [|o ops IH]; intros d0 d Hdom.
  - exists []. by rewrite app_nil_r.
  - destruct (step_frame d o) as [Hk Hs].
    destruct (IH d0 (step d o)) as (added & Hrun & Hlen).
    { intros sel. by rewrite Hs. }
    unfold run in *. cbn [foldl]. rewrite Hrun, Hk, <- app_assoc.
    eexists; split; [done|].
    rewrite length_app, Hlen. unfold EmergencyMore.count_opens.
    rewrite filter_cons.
    assert (EmergencyMore.opens d0 o
            = match o with
              | TriggerClick sel => bool_decide (is_Some (modal_els d !! sel))
              | _ => false
              end) as Hop.
    { destruct o; try done. cbn. apply bool_decide_ext. by rewrite Hdom. }
    rewrite Hop. destruct o as [sel| | |]; try done.
    case_bool_decide; [rewrite decide_True by done | rewrite decide_False by done];
      done.
Qed.

(** X18.  The script never removes a listener: whatever is clicked or
    pressed afterwards, the [keydown] listeners that were on [document]
    are still there, in order, and one more has been added for every click
    on a trigger whose target is on the page, also for a modal opened and
    closed again. *)
Theorem keydown_listeners_pile_up :
  ∀ (ops : list Op) (d : Doc),
    ∃ added,
      keydown_listeners (run ops d) = keydown_listeners d ++ added
      ∧ length added = EmergencyMore.count_opens d ops.
Proof. intros ops d. by apply run_keydown_listeners. Qed.

End EmergencyMoreTheorems.

(** ** Service workers: install, activate and fetch together *)

Section WorkerTheorems.
Import ServiceWorker Worker.

Lemma elem_of_put (x u : jsstring) (entries : list jsstring) :
  x ∈ put u entries ↔ x = u ∨ x ∈ entries.
Proof.
  unfold put. rewrite elem_of_app, list_elem_of_filter, list_elem_of_singleton.
  destruct (decide (x = u)); tauto.
Qed.

Lemma elem_of_fold_put (us : list jsstring) :
  ∀ (entries : list jsstring) (x : jsstring),
    x ∈ foldl (λ c u, put u c) entries us ↔ x ∈ entries ∨ x ∈ us.
Proof.
  induction us as [|u us IH]; intros entries x; cbn [foldl].
  - rewrite elem_of_nil. tauto.
  - rewrite IH, elem_of_put, elem_of_cons. tauto.
Qed.

Lemma cached_iff (u : jsstring) (caches : CacheStorage) :
  cached u caches = true
  ↔ ∃ name entries, caches !! name = Some entries ∧ u ∈ entries.
Proof.
  unfold cached. rewrite bool_decide_eq_true, Exists_exists. split.
  - intros ([name entries] & Hin & Hu). apply elem_of_map_to_list in Hin. eauto.
  - intros (name & entries & Hl & Hu). exists (name, entries).
    split; [by apply elem_of_map_to_list | done].
Qed.

Lemma cached_false_iff (u : jsstring) (caches : CacheStorage) :
  cached u caches = false
  ↔ ∀ name entries, caches !! name = Some entries → u ∉ entries.
Proof.
  rewrite <- not_true_iff_false, cached_iff. split.
  - intros Hn name entries Hl Hu. apply Hn. eauto.
  - intros Hn (name & entries & Hl & Hu). by eapply Hn.
Qed.

Lemma lookup_activate_job2hire (caches : CacheStorage) (name : jsstring) :
  activate Job2Hire caches !! name
  = if decide (name = CACHE_NAME Job2Hire) then caches !! name else None.
Proof.
  cbn [activate]. unfold job2hire_activate. rewrite lookup_delete_others.
  destruct (decide (name = CACHE_NAME Job2Hire)) as [->|Hne].
  - rewrite decide_False; [done|]. by intros [_ ?].
  - destruct (decide (name ∈ keys caches ∧ name ≠ CACHE_NAME Job2Hire))
      as [_|Hn]; [done|].
    destruct (caches !! name) as [v|] eqn:Hv; [|done].
    destruct Hn. split; [|done]. apply elem_of_keys. by eexists.
Qed.

(** X19.  When every URL of [CACHE_URLS] can be fetched, installing and
    then activating the Job2Hire worker leaves, whatever cache stores were
    there before, exactly one cache store, the one named [CACHE_NAME], and
    it holds every URL of [CACHE_URLS]. *)
Theorem job2hire_install_then_activate :
  ∀ (reachable : jsstring → bool) (caches : CacheStorage),
    forallb reachable (CACHE_URLS Job2Hire) = true →
    (install Job2Hire reachable caches).2 = true
    ∧ (∀ name,
         is_Some (activate Job2Hire (install Job2Hire reachable caches).1
                  !! name)
         ↔ name = CACHE_NAME Job2Hire)
    ∧ ∀ u, u ∈ CACHE_URLS Job2Hire →
           u ∈ entries_of (CACHE_NAME Job2Hire)
                 (activate Job2Hire (install Job2Hire reachable caches).1).
Proof.
  intros reachable caches Hok. unfold install. rewrite Hok. cbn [fst snd].
  split; [done|]. split.
  - intros name. rewrite lookup_activate_job2hire.
    destruct (decide (name = CACHE_NAME Job2Hire)) as [->|Hne].
    + rewrite lookup_insert_eq. split; [done | eauto].
    + split; [by intros [? ?] | done].
  - intros u Hu. unfold entries_of. rewrite lookup_activate_job2hire.
    rewrite decide_True by done. rewrite lookup_insert_eq. cbn [default].
    apply elem_of_fold_put. by right.
Qed.

Lemma job2hire_install_then_activate_witness :
  (install Job2Hire always_reachable
     {[ lit "job2hire-v0.9.0" := [lit "/"] ]}).2 = true.
Proof.
  refine (proj1 (job2hire_install_then_activate always_reachable
                   {[ lit "job2hire-v0.9.0" := [lit "/"] ]} _)).
  reflexivity.
Defined.

Lemma cached_insert_same (u name : jsstring) (caches : CacheStorage) :
  cached u (<[name := entries_of name caches]> caches) = cached u caches.
Proof.
  apply eq_true_iff_eq. rewrite !cached_iff. split.
  - intros (n & es & Hl & Hu). destruct (decide (name = n)) as [->|Hne].
    + rewrite lookup_insert_eq in Hl. injection Hl as <-.
      unfold entries_of in Hu. destruct (caches !! n) as [es|] eqn:Hn.
      * eauto.
      * by apply elem_of_nil in Hu.
    + rewrite lookup_insert_ne in Hl by done. eauto.
  - intros (n & es & Hl & Hu). exists n, es. split; [|done].
    destruct (decide (name = n)) as [->|Hne].
    + rewrite lookup_insert_eq. unfold entries_of. by rewrite Hl.
    + by rewrite lookup_insert_ne.
Qed.

(** X20.  When some URL of its list cannot be fetched, the installation of
    a worker adds no URL to any cache.  The Job2Hire worker is installed
    all the same, the recruiter and the candidate worker are not. *)
Theorem install_with_unreachable_url :
  ∀ (w : Worker) (reachable : jsstring → bool) (caches : CacheStorage),
    forallb reachable (CACHE_URLS w) = false →
    (∀ u, cached u (install w reachable caches).1 = cached u caches)
    ∧ ((install w reachable caches).2 = true ↔ w = Job2Hire).
Proof.
  intros w reachable caches Hfail. unfold install. rewrite Hfail.
  cbn [fst snd]. split.
  - intros u. apply cached_insert_same.
  - by destruct w.
Qed.

Lemma install_with_unreachable_url_witness :
  (install Candidate (λ u, negb (bool_decide (u = lit "/candidate/profile")))
     ∅).2 = true
  ↔ Candidate = Job2Hire.
Proof.
  refine (proj2 (install_with_unreachable_url Candidate
                   (λ u, negb (bool_decide (u = lit "/candidate/profile")))
                   ∅ _)).
  reflexivity.
Defined.

(** X21.  The [fetch] listener of the Job2Hire worker changes the cache
    stores only for a GET request that no cache answers and that the
    network answers with status 200 and type [basic]: other methods,
    cache hits, other statuses, cross-origin and opaque responses and
    failed fetches leave every cache as it is. *)
Theorem job2hire_fetch_caches_only_basic_200 :
  ∀ (r : Request) (net : jsstring → option Response) (caches : CacheStorage),
    (job2hire_fetch r net caches).2 ≠ caches →
    method r = GET
    ∧ caches_match r caches = false
    ∧ ∃ resp, net (url r) = Some resp
              ∧ status resp = 200 ∧ rtype resp = Basic.
Proof.
  intros r net caches. unfold job2hire_fetch.
  destruct (method r) eqn:Hm; [|done].
  destruct (caches_match r caches) eqn:Hc; [done|].
  destruct (net (url r)) as [resp|] eqn:Hn.
  - destruct (status resp =? 200) eqn:Hs; [|done].
    destruct (rtype resp) eqn:Ht; cbn; try done.
    intros _. apply N.eqb_eq in Hs. eauto 6.
  - by destruct (is_document r).
Qed.

Lemma job2hire_fetch_caches_only_basic_200_witness :
  method (mkRequest (lit "/jobs") GET true) = GET
  ∧ caches_match (mkRequest (lit "/jobs") GET true) ∅ = false
  ∧ ∃ resp, (λ _, Some (mkResponse 200 Basic)) (lit "/jobs") = Some resp
            ∧ status resp = 200 ∧ rtype resp = Basic.
Proof.
  refine (job2hire_fetch_caches_only_basic_200
            (mkRequest (lit "/jobs") GET true)
            (λ _, Some (mkResponse 200 Basic)) ∅ _).
  intros H. apply (f_equal (λ m : CacheStorage, m !! lit "job2hire-v1.0.0")) in H.
  vm_compute in H. discriminate.
Defined.




Lemma OFFLINE_URL_not_precached : OFFLINE_URL ∉ CACHE_URLS Job2Hire.
Proof.
  intros H. apply (bool_decide_eq_true_2 _) in H. vm_compute in H.
  discriminate.
Qed.

(** X23.  The installation of the Job2Hire worker does not cache the
    offline page: [OFFLINE_URL] is not in [CACHE_URLS].  So if no cache
    held it before, a navigation request that is in no cache gets no
    response at all while the network is down. *)
Theorem job2hire_offline_page_not_installed :
  ∀ (reachable : jsstring → bool) (caches : CacheStorage) (r : Request),
    cached OFFLINE_URL caches = false →
    cached OFFLINE_URL (install Job2Hire reachable caches).1 = false
    ∧ (method r = GET → is_document r = true →
       cached (url r) (install Job2Hire reachable caches).1 = false →
       (job2hire_fetch r offline (install Job2Hire reachable caches).1).1
       = NoResponse).
Proof.
  intros reachable caches r Hoff.
  assert (cached OFFLINE_URL (install Job2Hire reachable caches).1 = false)
    as Hoff'.
  { unfold install. destruct (forallb _ _); cbn [fst].
    - apply cached_false_iff. intros name entries Hl Hu.
      destruct (decide (CACHE_NAME Job2Hire = name)) as [<-|Hne].
      + rewrite lookup_insert_eq in Hl. apply (inj Some) in Hl. subst entries.
        apply elem_of_fold_put in Hu as [Hu|Hu].
        * unfold entries_of in Hu.
          destruct (caches !! CACHE_NAME Job2Hire) as [es|] eqn:He.
          -- by eapply (proj1 (cached_false_iff _ _) Hoff).
          -- by apply elem_of_nil in Hu.
        * by apply OFFLINE_URL_not_precached.
      + rewrite lookup_insert_ne in Hl by done.
        by eapply (proj1 (cached_false_iff _ _) Hoff).
    - by rewrite cached_insert_same. }
  split; [done|]. intros Hm Hd Hmiss.
  unfold job2hire_fetch, caches_match. by rewrite Hm, Hmiss, Hd, Hoff'.
Qed.

Lemma job2hire_offline_page_not_installed_witness :
  cached OFFLINE_URL (install Job2Hire always_reachable ∅).1 = false.
Proof.
  refine (proj1 (job2hire_offline_page_not_installed always_reachable ∅
                   (mkRequest (lit "/jobs") GET true) _)).
  reflexivity.
Defined.

(** X24.  The workers share the cache stores of the origin.  After the
    candidate worker is installed, each URL of its list is served from the
    cache whatever the network does; once the Job2Hire worker is activated
    the candidate cache is deleted, and such a URL, unless the Job2Hire
    cache holds it too, gets no response while the network is down. *)
Theorem job2hire_activation_empties_candidate_cache :
  ∀ (caches : CacheStorage) (u : jsstring),
    u ∈ CACHE_URLS Candidate →
    (∀ net,
       (simple_fetch (mkRequest u GET false) net
          (install Candidate always_reachable caches).1).1
       = FromCache u)
    ∧ (u ∉ entries_of (CACHE_NAME Job2Hire) caches →
       (simple_fetch (mkRequest u GET false) offline
          (activate Job2Hire (install Candidate always_reachable caches).1)).1
       = NoResponse).
Proof.
  intros caches u Hu. unfold install. cbn [forallb always_reachable fst].
  replace (forallb always_reachable (CACHE_URLS Candidate)) with true
    by (symmetry; by apply forallb_forall).
  cbn [fst]. split.
  - intros net. unfold simple_fetch, caches_match. cbn [method url].
    replace (cached u _) with true; [done|]. symmetry.
    apply cached_iff. eexists _, _. split; [apply lookup_insert_eq|].
    apply elem_of_fold_put. by right.
  - intros Hnot. unfold simple_fetch, caches_match. cbn [method url].
    replace (cached u _) with false; [done|]. symmetry.
    apply cached_false_iff. intros name entries Hl.
    rewrite lookup_activate_job2hire in Hl.
    destruct (decide (name = CACHE_NAME Job2Hire)) as [->|_]; [|done].
    rewrite lookup_insert_ne in Hl by done.
    unfold entries_of in Hnot. by rewrite Hl in Hnot.
Qed.

Lemma job2hire_activation_empties_candidate_cache_witness :
  (simple_fetch (mkRequest (lit "/candidate/dashboard") GET false) offline
     (activate Job2Hire (install Candidate always_reachable ∅).1)).1
  = NoResponse.
Proof.
  refine (proj2 (job2hire_activation_empties_candidate_cache ∅
                   (lit "/candidate/dashboard") _) _).
  - left.
  - intros H. by apply elem_of_nil in H.
Defined.

End WorkerTheorems.

(** ** The countdown *)

Section CountdownTheorems.
Import Countdown.

Lemma duration_of_nonzero (parsed : option Z) : duration_of parsed ≠ 0%Z.
Proof. destruct parsed as [[|d|d]|]; done. Qed.

Lemma after_calls_S (parsed : option Z) (form : bool) (n : nat) :
  after_calls parsed form (S n) = updateTimer (after_calls parsed form n).
Proof. done. Qed.

(** On a time that is not negative, [formatTime] is the function of
    [main-fixed.js] on natural numbers. *)
Lemma formatTime_nonneg (seconds : Z) :
  (0 ≤ seconds)%Z →
  formatTime seconds = FormatTime.formatTime_fixed (Z.to_N seconds).
Proof.
  intros H. unfold formatTime, FormatTime.formatTime_fixed, toString.
  assert (0 ≤ seconds / 60)%Z as Hm by (apply Z.div_pos; lia).
  assert (0 ≤ Z.rem seconds 60)%Z as Hr by (apply Z.rem_nonneg; lia).
  rewrite (proj2 (Z.ltb_ge _ _) Hm), (proj2 (Z.ltb_ge _ _) Hr).
  rewrite Z2N.inj_div by lia. rewrite Z2N.inj_rem by lia. done.
Qed.

(** X25.  The countdown of the interview page starts at the number
    [parseInt] makes of [data-duration], or at 1800 when that is [NaN]
    (attribute missing or not a number) or zero.  A positive duration is
    counted down: after [n] calls of [updateTimer] the time left is the
    duration minus [n], never below zero, and the form is submitted for
    the first time by the call that finds zero, and again by every later
    call, because the interval is never cleared.  A negative duration is
    truthy and is kept: the time left stays at it and the form is
    submitted by every call, from the first on.  Call [n + 1] displays
    the time left after [n] calls.  (Durations of magnitude up to 2^53,
    on which the arithmetic of the script is exact.) *)
Theorem countdown_after_calls :
  ∀ (parsed : option Z) (form : bool) (n : nat),
    safe parsed = true →
    duration_of parsed ≠ 0%Z
    ∧ timeLeft (after_calls parsed form n)
      = (if (0 <? duration_of parsed)%Z
         then Z.max 0 (duration_of parsed - Z.of_nat n)
         else duration_of parsed)
    ∧ submits (after_calls parsed form n)
      = (if form
         then (if (0 <? duration_of parsed)%Z
               then n - Z.to_nat (duration_of parsed) else n)
         else 0)%nat
    ∧ shown (after_calls parsed form (S n))
      = Some (formatTime (timeLeft (after_calls parsed form n)))
    ∧ ((0 < duration_of parsed)%Z →
       shown (after_calls parsed form (S n))
       = Some (FormatTime.formatTime_fixed
                 (Z.to_N (duration_of parsed) - N.of_nat n))).
Proof.
  intros parsed form n _. split; [apply duration_of_nonzero|].
  assert (timeLeft (after_calls parsed form n)
          = (if (0 <? duration_of parsed)%Z
             then Z.max 0 (duration_of parsed - Z.of_nat n)
             else duration_of parsed)
          ∧ submits (after_calls parsed form n)
            = (if form
               then (if (0 <? duration_of parsed)%Z
                     then n - Z.to_nat (duration_of parsed) else n)
               else 0)%nat
          ∧ has_form (after_calls parsed form n) = form) as (Ht & Hs & Hf).
  { induction n as [|n (Ht & Hs & Hf)].
    - cbn. destruct (0 <? duration_of parsed)%Z eqn:Hd.
      + apply Z.ltb_lt in Hd. split; [lia|]. split; [|done].
        destruct form; lia.
      + split; [done|]. split; [|done]. by destruct form.
    - rewrite after_calls_S. generalize dependent (after_calls parsed form n).
      intros t Ht Hs Hf. unfold updateTimer.
      destruct (0 <? duration_of parsed)%Z eqn:Hd;
        [apply Z.ltb_lt in Hd | apply Z.ltb_ge in Hd];
        (destruct (timeLeft t <=? 0)%Z eqn:Hz;
         [apply Z.leb_le in Hz | apply Z.leb_gt in Hz]);
        cbn [timeLeft submits has_form]; rewrite ?Hf, ?Hs;
        (split; [lia|]); (split; [|done]); destruct form; lia. }
  split; [done|]. split; [done|].
  assert (shown (after_calls parsed form (S n))
          = Some (formatTime (timeLeft (after_calls parsed form n)))) as Hsh.
  { rewrite after_calls_S. unfold updateTimer.
    by destruct (timeLeft _ <=? 0)%Z. }
  split; [done|]. intros Hpos. rewrite Hsh, Ht.
  rewrite (proj2 (Z.ltb_lt _ _) Hpos).
  rewrite formatTime_nonneg by lia. do 2 f_equal. lia.
Qed.

Lemma countdown_after_calls_witness :
  timeLeft (after_calls (Some (-5)%Z) true 3) = (-5)%Z
  ∧ submits (after_calls (Some (-5)%Z) true 3) = 3%nat
  ∧ shown (after_calls (Some (-5)%Z) true 1) = Some (lit "-1:-5").
Proof.
  destruct (countdown_after_calls (Some (-5)%Z) true 3 eq_refl)
    as (_ & Ht & Hs & _).
  destruct (countdown_after_calls (Some (-5)%Z) true 0 eq_refl)
    as (_ & _ & _ & Hsh & _).
  split; [exact Ht|]. split; [exact Hs|]. rewrite Hsh. reflexivity.
Defined.

End CountdownTheorems.

(** ** Loading state of a button *)

Section LoadingTheorems.
Import Loading.

(** X26.  [hideLoading] after [showLoading] gives an element back its
    content and leaves it enabled and without the [data-original-text]
    attribute, provided the content was not empty; the element is enabled
    also if it was disabled before.  An element whose content was empty is
    left as [showLoading] made it, disabled and showing the spinner. *)
Theorem hideLoading_after_showLoading :
  ∀ (text : jsstring) (e : Element),
    (innerHTML e ≠ [] →
     hideLoading (showLoading text e) = mkElement false (innerHTML e) None)
    ∧ (innerHTML e = [] →
       hideLoading (showLoading text e) = showLoading text e
       ∧ disabled (hideLoading (showLoading text e)) = true).
Proof.
  intros text e. unfold hideLoading, showLoading. cbn [originalText].
  destruct (innerHTML e) as [|c s]; split; done.
Qed.

Lemma hideLoading_after_showLoading_witness :
  hideLoading (showLoading (lit "Exporting...")
                 (mkElement true (lit "Export") None))
  = mkElement false
      (innerHTML (mkElement true (lit "Export") None)) None.
Proof.
  refine (proj1 (hideLoading_after_showLoading (lit "Exporting...")
                   (mkElement true (lit "Export") None)) _).
  discriminate.
Defined.

End LoadingTheorems.

(** ** Patterns and [FormValidator] *)

Section RegexTheorems.
Import Regex.

Lemma Matches_Cat (r1 r2 : re) (s : jsstring) :
  Matches (Cat r1 r2) s
  ↔ ∃ s1 s2, s = s1 ++ s2 ∧ Matches r1 s1 ∧ Matches r2 s2.
Proof.
  split.
  - inversion 1; subst. eauto.
  - intros (s1 & s2 & -> & H1 & H2). by constructor.
Qed.

Lemma Matches_Alt (r1 r2 : re) (s : jsstring) :
  Matches (Alt r1 r2) s ↔ Matches r1 s ∨ Matches r2 s.
Proof.
  split.
  - inversion 1; subst; auto.
  - intros [H|H]; [by apply MAltL | by apply MAltR].
Qed.

Lemma Matches_Class (p : N → bool) (s : jsstring) :
  Matches (Class p) s ↔ ∃ c, s = [c] ∧ p c = true.
Proof.
  split.
  - inversion 1; subst. eauto.
  - intros (c & -> & H). by constructor.
Qed.

Lemma Matches_Eps (s : jsstring) : Matches Eps s ↔ s = [].
Proof. split; [by inversion 1 | intros ->; constructor]. Qed.

Lemma Matches_Void (s : jsstring) : ¬ Matches Void s.
Proof. inversion 1. Qed.

Lemma nullable_Matches (r : re) : nullable r = true ↔ Matches r [].
Proof.
  induction r as [| |p|r1 IH1 r2 IH2|r1 IH1 r2 IH2|r IH]; simpl.
  - split; [discriminate | intros H; by apply Matches_Void in H].
  - split; [constructor | done].
  - split; [discriminate|]. intros H.
    apply Matches_Class in H as (c & [=] & _).
  - rewrite andb_true_iff, IH1, IH2, Matches_Cat. split.
    + intros [H1 H2]. by exists [], [].
    + intros (s1 & s2 & Heq & H1 & H2). symmetry in Heq.
      apply app_eq_nil in Heq as [-> ->]. by split.
  - by rewrite orb_true_iff, IH1, IH2, Matches_Alt.
  - split; [constructor | done].
Qed.

Lemma deriv_Matches_1 (c : N) (r : re) (s : jsstring) :
  Matches (deriv c r) s → Matches r (c :: s).
Proof.
  revert s.
  induction r as [| |p|r1 IH1 r2 IH2|r1 IH1 r2 IH2|r IH]; simpl; intros s H.
  - by apply Matches_Void in H.
  - by apply Matches_Void in H.
  - destruct (p c) eqn:Hp; [|by apply Matches_Void in H].
    apply Matches_Eps in H as ->. by constructor.
  - destruct (nullable r1) eqn:Hn.
    + apply Matches_Alt in H as [H|H].
      * apply Matches_Cat in H as (s1 & s2 & -> & H1 & H2).
        apply (MCat _ _ (c :: s1) s2); auto.
      * apply (MCat _ _ [] (c :: s)); [by apply nullable_Matches | auto].
    + apply Matches_Cat in H as (s1 & s2 & -> & H1 & H2).
      apply (MCat _ _ (c :: s1) s2); auto.
  - apply Matches_Alt in H as [H|H]; [apply MAltL | apply MAltR]; auto.
  - apply Matches_Cat in H as (s1 & s2 & -> & H1 & H2).
    apply (MStarS _ (c :: s1) s2); auto.
Qed.

Lemma deriv_Matches_2 (c : N) (r : re) (s : jsstring) :
  Matches r (c :: s) → Matches (deriv c r) s.
Proof.
  intros H. remember (c :: s) as cs eqn:E. revert s E.
  induction H as [|p c' Hp|r1 r2 s1 s2 H1 IH1 H2 IH2|r1 r2 s' H IH
                  |r1 r2 s' H IH|r|r s1 s2 H1 IH1 H2 IH2]; intros s E; simpl.
  - discriminate.
  - injection E as -> <-. rewrite Hp. constructor.
  - destruct s1 as [|c1 s1']; simpl in E.
    + subst s2. apply nullable_Matches in H1 as ->. apply MAltR. by apply IH2.
    + injection E as -> <-.
      destruct (nullable r1); [apply MAltL|]; apply MCat; auto.
  - apply MAltL. auto.
  - apply MAltR. auto.
  - discriminate.
  - destruct s1 as [|c1 s1']; simpl in E.
    + by apply IH2.
    + injection E as -> <-. apply MCat; auto.
Qed.

(** The matcher decides membership in the language of the pattern. *)
Lemma test_Matches (r : re) (s : jsstring) : test r s = true ↔ Matches r s.
Proof.
  revert r. induction s as [|c s IH]; intros r; simpl.
  - apply nullable_Matches.
  - rewrite IH. split; [apply deriv_Matches_1 | apply deriv_Matches_2].
Qed.

Lemma Matches_Star_Class (p : N → bool) (s : jsstring) :
  Matches (Star (Class p)) s ↔ Forall (λ c, p c = true) s.
Proof.
  split.
  - intros H. remember (Star (Class p)) as r eqn:E.
    induction H as [| | | | | |r s1 s2 H1 _ H2 IH2]; try discriminate.
    + constructor.
    + injection E as ->. inversion H1; subst. constructor; auto.
  - induction 1 as [|c s' Hc _ IH]; [constructor|].
    apply (MStarS _ [c] s'); [by constructor | done].
Qed.

Lemma Matches_Plus_Class (p : N → bool) (s : jsstring) :
  Matches (Plus (Class p)) s ↔ s ≠ [] ∧ Forall (λ c, p c = true) s.
Proof.
  unfold Plus. rewrite Matches_Cat. split.
  - intros (s1 & s2 & -> & H1 & H2).
    apply Matches_Class in H1 as (c & -> & Hc).
    apply Matches_Star_Class in H2. split; [done | by constructor].
  - intros [Hne H]. destruct H as [|c s' Hc H]; [done|].
    exists [c], s'. split; [done|]. split; [by constructor|].
    by apply Matches_Star_Class.
Qed.

Lemma Matches_Rep_Class (p : N → bool) (n : nat) (s : jsstring) :
  Matches (Rep n (Class p)) s ↔ length s = n ∧ Forall (λ c, p c = true) s.
Proof.
  revert s. induction n as [|n IH]; intros s; simpl.
  - split.
    + inversion 1. by split.
    + intros [Hl _]. destruct s; [constructor | discriminate].
  - rewrite Matches_Cat. split.
    + intros (s1 & s2 & -> & H1 & H2).
      apply Matches_Class in H1 as (c & -> & Hc). apply IH in H2 as [Hl H].
      simpl. split; [by rewrite Hl | by constructor].
    + intros [Hl H]. destruct H as [|c s' Hc H]; [discriminate|].
      exists [c], s'. split; [done|]. split; [by constructor|].
      apply IH. split; [by injection Hl | done].
Qed.

Lemma Matches_AtLeast_Class (p : N → bool) (n : nat) (s : jsstring) :
  Matches (AtLeast n (Class p)) s
  ↔ (n ≤ length s)%nat ∧ Forall (λ c, p c = true) s.
Proof.
  unfold AtLeast. rewrite Matches_Cat. split.
  - intros (s1 & s2 & -> & H1 & H2).
    apply Matches_Rep_Class in H1 as [Hl H1]. apply Matches_Star_Class in H2.
    split; [rewrite length_app; lia | by apply Forall_app].
  - intros [Hl H]. exists (take n s), (drop n s).
    split; [by rewrite take_drop|]. split.
    + apply Matches_Rep_Class. split; [rewrite length_take; lia|].
      by apply Forall_take.
    + apply Matches_Star_Class. by apply Forall_drop.
Qed.

(** X27. [isValidEmail] accepts exactly the strings made of a user part,
    an at sign, a domain part, a full stop and a last part, the three
    parts not empty and free of white space and at signs (full stops may
    occur in any of them). *)
Theorem isValidEmail_shape (email : jsstring) :
  isValidEmail email = true
  ↔ ∃ user domain tld,
      email = user ++ 64 :: domain ++ 46 :: tld
      ∧ user ≠ [] ∧ domain ≠ [] ∧ tld ≠ []
      ∧ Forall (λ c, not_ws_at c = true) (user ++ domain ++ tld).
Proof.
  unfold isValidEmail. rewrite test_Matches. unfold emailRegex. split.
  - intros H.
    apply Matches_Cat in H as (user & s1 & -> & Hu & H).
    apply Matches_Cat in H as (a & s2 & -> & Ha & H).
    apply Matches_Cat in H as (domain & s3 & -> & Hd & H).
    apply Matches_Cat in H as (d & tld & -> & Hdot & Ht).
    apply Matches_Class in Ha as (ca & -> & Hca). apply N.eqb_eq in Hca as <-.
    apply Matches_Class in Hdot as (cd & -> & Hcd). apply N.eqb_eq in Hcd as <-.
    apply Matches_Plus_Class in Hu as [Hu1 Hu2].
    apply Matches_Plus_Class in Hd as [Hd1 Hd2].
    apply Matches_Plus_Class in Ht as [Ht1 Ht2].
    exists user, domain, tld. repeat split; try done.
    rewrite !Forall_app. by repeat split.
  - intros (user & domain & tld & -> & Hu & Hd & Ht & H).
    rewrite !Forall_app in H. destruct H as (Hu2 & Hd2 & Ht2).
    apply (MCat _ _ user); [by apply Matches_Plus_Class|].
    apply (MCat _ _ [64]); [by constructor|].
    apply (MCat _ _ domain); [by apply Matches_Plus_Class|].
    apply (MCat _ _ [46]); [by constructor|].
    by apply Matches_Plus_Class.
Qed.

Lemma trimStart_ws (s : jsstring) :
  trimStart s = [] ↔ Forall (λ c, is_ws c = true) s.
Proof.
  induction s as [|c s IH]; simpl.
  - split; [constructor | done].
  - destruct (is_ws c) eqn:Hc.
    + rewrite IH. split; [by constructor | by inversion 1].
    + split; [discriminate | inversion 1; congruence].
Qed.

Lemma trimStart_app (l r : jsstring) (c : N) :
  is_ws c = false → trimStart (l ++ c :: r) = trimStart l ++ c :: r.
Proof.
  intros Hc. induction l as [|a l IH]; simpl.
  - by rewrite Hc.
  - by destruct (is_ws a).
Qed.

Lemma trimStart_idemp (s : jsstring) : trimStart (trimStart s) = trimStart s.
Proof.
  induction s as [|c s IH]; [done|]. simpl.
  destruct (is_ws c) eqn:Hc; [done|]. simpl. by rewrite Hc.
Qed.

Lemma trimStart_head (s : jsstring) :
  trimStart s = [] ∨ ∃ c t, trimStart s = c :: t ∧ is_ws c = false.
Proof.
  induction s as [|c s IH]; [by left|]. simpl.
  destruct (is_ws c) eqn:Hc; [done|]. right. eauto.
Qed.

Lemma trimEnd_cons (c : N) (t : jsstring) :
  is_ws c = false → trimEnd (c :: t) = c :: trimEnd t.
Proof.
  intros Hc. unfold trimEnd.
  rewrite reverse_cons, (trimStart_app _ [] c Hc), reverse_app. done.
Qed.

Lemma trimEnd_idemp (s : jsstring) : trimEnd (trimEnd s) = trimEnd s.
Proof. unfold trimEnd. by rewrite reverse_involutive, trimStart_idemp. Qed.

Lemma trimEnd_ws (s : jsstring) :
  trimEnd s = [] ↔ Forall (λ c, is_ws c = true) s.
Proof.
  unfold trimEnd. split.
  - intros H. apply (f_equal reverse) in H.
    rewrite reverse_involutive in H. change (reverse []) with (@nil N) in H.
    apply trimStart_ws in H. apply Forall_reverse in H.
    by rewrite reverse_involutive in H.
  - intros H. apply Forall_reverse in H. apply trimStart_ws in H.
    by rewrite H.
Qed.

(** A string trims to the empty string exactly when it is white space only. *)
Lemma trim_ws (s : jsstring) : trim s = [] ↔ Forall (λ c, is_ws c = true) s.
Proof.
  unfold trim. rewrite trimEnd_ws. split.
  - intros H. destruct (trimStart_head s) as [E|(c & t & E & Hc)].
    + by apply trimStart_ws.
    + rewrite E in H. inversion H; congruence.
  - intros H. apply trimStart_ws in H. rewrite H. constructor.
Qed.

(** Trimming twice is trimming once. *)
Lemma trim_idemp (s : jsstring) : trim (trim s) = trim s.
Proof.
  unfold trim. destruct (trimStart_head s) as [E|(c & t & E & Hc)].
  - by rewrite E.
  - rewrite E, (trimEnd_cons _ _ Hc). simpl. rewrite Hc.
    by rewrite (trimEnd_cons _ _ Hc), trimEnd_idemp.
Qed.

End RegexTheorems.

Section FormValidatorTheorems.
Import Regex FormValidator.

Lemma validators_Inherited (ty : jsstring) :
  validators ty = Inherited ↔ ty ∈ object_prototype_names.
Proof.
  unfold validators.
  repeat (case_decide as E;
          [subst ty; split; [discriminate|];
           intros H; apply (bool_decide_eq_true_2 _) in H;
           vm_compute in H; discriminate|clear E]).
  case_bool_decide as Hin; split; done.
Qed.

Lemma truthy_trim (s : jsstring) :
  truthy_str (trim s) = false ↔ Forall (λ c, is_ws c = true) s.
Proof.
  rewrite <- trim_ws. destruct (trim s); simpl; split; done.
Qed.

(** X28. [validateField] throws a [TypeError] exactly for a field whose
    [data-validate] names a property that the validators table inherits
    from [Object.prototype] (such as [constructor]) and whose value is not
    white space only. *)
Theorem validateField_throws_iff (password : option jsstring) (f : Field) :
  (∃ st, validateField password f = TypeError st)
  ↔ ∃ ty, data_validate f = Some ty
          ∧ ty ∈ object_prototype_names
          ∧ ¬ Forall (λ c, is_ws c = true) (value f).
Proof.
  unfold validateField. destruct (data_validate f) as [ty|].
  2: { split; [intros [? [=]] | intros (? & [=] & _)]. }
  destruct (truthy_str (trim (value f))) eqn:Ht.
  - assert (Hws : ¬ Forall (λ c, is_ws c = true) (value f)).
    { intros H. apply truthy_trim in H. congruence. }
    rewrite andb_false_r. simpl.
    destruct (validators ty) as [|pattern message|] eqn:Hv.
    + split.
      * intros [st H]. repeat case_decide; destruct password; discriminate.
      * intros (ty' & [= <-] & Hin & _). apply validators_Inherited in Hin.
        congruence.
    + split.
      * intros [st H]. destruct (test pattern _); discriminate.
      * intros (ty' & [= <-] & Hin & _). apply validators_Inherited in Hin.
        congruence.
    + split; [|by eauto]. intros _. exists ty.
      split; [done|]. split; [by apply validators_Inherited | done].
  - apply truthy_trim in Ht. simpl.
    destruct (required f || data_required f); simpl.
    + split; [intros [? [=]] | intros (? & _ & _ & H); by destruct H].
    + split; [intros [? [=]] | intros (? & _ & _ & H); by destruct H].
Qed.

(** X29. A password confirmation is compared, trimmed, with the untrimmed
    value of the password field: when that value begins or ends with
    white space, no confirmation that is not blank is accepted, not even
    the password itself. *)
Theorem password_confirm_never_matches_padded
    (password : jsstring) (f : Field) :
  data_validate f = Some (lit "password_confirm") →
  trim password ≠ password →
  ¬ Forall (λ c, is_ws c = true) (value f) →
  validateField (Some password) f
  = Ok (showFieldError (lit "Passwords do not match") (clearFieldError f),
        false).
Proof.
  intros Hty Hpad Hws. unfold validateField. rewrite Hty.
  destruct (truthy_str (trim (value f))) eqn:Ht.
  2: { apply truthy_trim in Ht. by destruct Hws. }
  rewrite andb_false_r. cbn [negb andb].
  assert (Hv : validators (lit "password_confirm") = NoValidator)
    by (vm_compute; reflexivity).
  rewrite Hv. rewrite decide_True by done.
  rewrite decide_False; [done|].
  intros E. apply Hpad. rewrite <- E. apply trim_idemp.
Qed.

Lemma password_confirm_never_matches_padded_witness :
  validateField (Some (lit "secret1 "))
    (mkField (Some (lit "password_confirm")) true false (lit "secret1 ")
             None (Some (lit "confirm")) None false None)
  = Ok (showFieldError (lit "Passwords do not match")
          (clearFieldError
             (mkField (Some (lit "password_confirm")) true false
                      (lit "secret1 ") None (Some (lit "confirm")) None
                      false None)),
        false).
Proof.
  refine (password_confirm_never_matches_padded (lit "secret1 ")
            (mkField (Some (lit "password_confirm")) true false
                     (lit "secret1 ") None (Some (lit "confirm")) None
                     false None) eq_refl _ _).
  - vm_compute. discriminate.
  - intros H. apply truthy_trim in H. vm_compute in H. discriminate.
Defined.

(** X30. A [password] field is accepted exactly when, after trimming,
    its value is empty and the field is not required, or it has at least
    eight code units, none of them a line terminator: white space at the
    ends does not count towards the eight. *)
Theorem password_accepted_iff (password : option jsstring) (f : Field) :
  data_validate f = Some (lit "password") →
  (∃ f', validateField password f = Ok (f', true))
  ↔ (trim (value f) = [] ∧ required f = false ∧ data_required f = false)
    ∨ ((8 ≤ length (trim (value f)))%nat
       ∧ Forall (λ c, is_dot c = true) (trim (value f))).
Proof.
  intros Hty. unfold validateField. rewrite Hty.
  assert (Hv : validators (lit "password")
               = Validator (AtLeast 8 (Class is_dot))
                   (lit "Password must be at least 8 characters long"))
    by (vm_compute; reflexivity).
  rewrite Hv. clear Hv.
  destruct (trim (value f)) as [|c v] eqn:Ev.
  - simpl. destruct (required f), (data_required f); simpl.
    + split; [intros [? [=]] | intros [(_ & [=] & _)|[H _]]; simpl in H; lia].
    + split; [intros [? [=]] | intros [(_ & [=] & _)|[H _]]; simpl in H; lia].
    + split; [intros [? [=]] | intros [(_ & _ & [=])|[H _]]; simpl in H; lia].
    + split; [by left | by eauto].
  - cbn [truthy_str negb andb]. rewrite andb_false_r.
    destruct (test (AtLeast 8 (Class is_dot)) (c :: v)) eqn:Ht.
    + apply test_Matches, Matches_AtLeast_Class in Ht.
      rewrite decide_False by (vm_compute; discriminate).
      split; [by right | by eauto].
    + split.
      * intros [? [=]].
      * intros [([=] & _)|H].
        apply Matches_AtLeast_Class, test_Matches in H. congruence.
Qed.

Lemma password_accepted_iff_witness :
  ¬ ∃ f', validateField None
            (mkField (Some (lit "password")) true false (lit "  abcdefg ")
                     None None None false None)
          = Ok (f', true).
Proof.
  intros H.
  apply (proj1 (password_accepted_iff None
                  (mkField (Some (lit "password")) true false
                           (lit "  abcdefg ") None None None false None)
                  eq_refl)) in H.
  destruct H as [(H & _)|(H & _)].
  - vm_compute in H. discriminate.
  - vm_compute in H. lia.
Defined.

End FormValidatorTheorems.
